(** * csvreplace: bulk literal find/replace driven by a CSV of pairs

    A shallow embedding of the two core parts of [find_replace_from_csv]
    (src/csvreplace.py) on values in memory: the loop that loads the
    replacement pairs from the CSV rows (lines 20-39) and the loop that
    applies them to the text (lines 47-83); and of the default output path
    of the main block (lines 138-146).

    Python values are modelled as follows: a [str] is a list of Unicode
    code points, a CSV row is a list of [str], the list [replacements] is a
    list of pairs.  [print] appends a message to a log that is threaded
    through the code, and the exceptions the code can meet ([StopIteration]
    from [next], [IndexError] from indexing a row) are explicit. *)

From Stdlib Require Import String Ascii Bool Arith NArith Lia List.
From Stdlib Require Import ZArith.
Import ListNotations.

Set Implicit Arguments.

(** ** Python strings *)

Module Py.

(** A character is its code point; a string is the list of its
    characters. *)
Definition char := N.
Definition str := list char.

(** String literals of the development (ASCII only). *)
Definition of_string (s : string) : str :=
  List.map N_of_ascii (list_ascii_of_string s).

(** [str.isspace] on one character: the code points CPython treats as
    whitespace. *)
Definition isspace (c : char) : bool :=
  ((9 <=? c) && (c <=? 13)            (* \t \n \v \f \r *)
   || (28 <=? c) && (c <=? 32)        (* FS GS RS US and the space *)
   || (c =? 133) || (c =? 160)        (* NEL, no-break space *)
   || (c =? 5760)                     (* U+1680 *)
   || (8192 <=? c) && (c <=? 8202)    (* U+2000 .. U+200A *)
   || (c =? 8232) || (c =? 8233)      (* U+2028, U+2029 *)
   || (c =? 8239) || (c =? 8287)      (* U+202F, U+205F *)
   || (c =? 12288))%N.                (* U+3000 *)

(** [s.lstrip()], [s.rstrip()] and [s.strip()] without argument. *)
Fixpoint lstrip (s : str) : str :=
  match s with
  | [] => []
  | c :: s' => if isspace c then lstrip s' else s
  end.

Definition rstrip (s : str) : str := rev (lstrip (rev s)).

Definition strip (s : str) : str := rstrip (lstrip s).

(** [not s] for a string: true on the empty string only. *)
Definition is_empty (s : str) : bool :=
  match s with [] => true | _ :: _ => false end.

(** [s.startswith(old)]. *)
Fixpoint starts_with (old s : str) : bool :=
  match old, s with
  | [], _ => true
  | _ :: _, [] => false
  | a :: old', b :: s' => (a =? b)%N && starts_with old' s'
  end.

(** [old in s]: [old] occurs in [s] as a literal substring. *)
Fixpoint is_infix (old s : str) : bool :=
  starts_with old s ||
  match s with
  | [] => false
  | _ :: s' => is_infix old s'
  end.

(** [s.replace("", new)]: [new] is put before every character and at the
    end. *)
Fixpoint interleave (new s : str) : str :=
  match s with
  | [] => new
  | c :: s' => new ++ c :: interleave new s'
  end.

(** The scan of [s.replace(old, new)] for a non-empty [old], left to
    right.  [skip] counts the characters of an occurrence just replaced
    that are still to be passed over; at [skip = 0] the scan tests for an
    occurrence at the current position. *)
Fixpoint replace_scan (old new : str) (skip : nat) (s : str) : str :=
  match s with
  | [] => []
  | c :: s' =>
      match skip with
      | S k => replace_scan old new k s'
      | O =>
          if starts_with old s
          then new ++ replace_scan old new (length old - 1) s'
          else c :: replace_scan old new 0 s'
      end
  end.

(** [s.replace(old, new)]. *)
Definition str_replace (s old new : str) : str :=
  match old with
  | [] => interleave new s
  | _ :: _ => replace_scan old new 0 s
  end.

End Py.

Import Py.

Notation "'py' s" := (of_string s%string) (at level 1, only parsing).

(** ** Messages, exceptions and the monad of the function body *)

Definition row := list str.
Definition pair := (str * str)%type.

(** What the function prints.  Each constructor is one [print] call of the
    source; the interpolated values are its arguments. *)
Inductive Msg : Type :=
| HeaderSkipped                                   (* line 23 *)
| EmptyAfterHeader                                (* line 25 *)
| EmptyFind (row_num : nat)                       (* line 33 *)
| InsufficientColumns (row_num : nat) (r : row)   (* line 39 *)
| CsvNotFound                                     (* line 41 *)
| CsvError                                        (* line 44 *)
| NoValidPairs                                    (* line 48 *)
| InputCopied                                     (* line 55 *)
| InputNotFound                                   (* lines 58, 68 *)
| Performing (n : nat)                            (* line 76 *)
| Replaced (find_text replace_text : str)         (* line 81 *)
| Success.                                        (* line 88 *)

(** The text of a message up to its first interpolated value. *)
Definition msg_text (m : Msg) : string :=
  match m with
  | HeaderSkipped => "CSV header row skipped."
  | EmptyAfterHeader =>
      "Warning: CSV file is empty even after attempting to skip header."
  | EmptyFind _ => "Warning: Skipping row "
  | InsufficientColumns _ _ => "Warning: Skipping row "
  | CsvNotFound => "Error: CSV file not found at '"
  | CsvError => "Error reading CSV file '"
  | NoValidPairs =>
      "No valid replacement pairs found or loaded from the CSV file."
  | InputCopied => "No replacements made. Input file content copied to '"
  | InputNotFound => "Error: Input text file not found at '"
  | Performing _ => "Performing "
  | Replaced _ _ => "  Replaced '"
  | Success => "Successfully processed file. Output saved to '"
  end%string.

(** A warning is a message printed with the prefix [Warning:]. *)
Definition is_warning (m : Msg) : bool := String.prefix "Warning:" (msg_text m).

(** The row number a message names, if it names one. *)
Definition msg_row (m : Msg) : option nat :=
  match m with
  | EmptyFind n | InsufficientColumns n _ => Some n
  | _ => None
  end.

Inductive exn : Type := StopIteration | IndexError.

Definition exn_eqb (a b : exn) : bool :=
  match a, b with
  | StopIteration, StopIteration | IndexError, IndexError => true
  | _, _ => false
  end.

Inductive outcome (A : Type) : Type :=
| Ok (a : A)
| Raise (e : exn).
Arguments Ok {A} a.
Arguments Raise {A} e.

(** A computation takes the log printed so far and gives a value or an
    exception together with the log extended by what it printed. *)
Definition M (A : Type) : Type := list Msg -> outcome A * list Msg.

Definition ret {A} (a : A) : M A := fun out => (Ok a, out).

Definition raise {A} (e : exn) : M A := fun out => (Raise e, out).

Definition bind {A B} (m : M A) (k : A -> M B) : M B :=
  fun out =>
    match m out with
    | (Ok a, out') => k a out'
    | (Raise e, out') => (Raise e, out')
    end.

Definition print (m : Msg) : M unit := fun out => (Ok tt, out ++ [m]).

(** [try: body / except e: handler]. *)
Definition try_except {A} (body : M A) (e : exn) (handler : M A) : M A :=
  fun out =>
    match body out with
    | (Raise e', out') =>
        if exn_eqb e e' then handler out' else (Raise e', out')
    | r => r
    end.

Notation "x <- m ;; k" := (bind m (fun x => k))
  (at level 61, m at next level, right associativity).
Notation "m ;;; k" := (bind m (fun _ => k))
  (at level 61, right associativity).

(** The value and the printed messages of a run from the empty log. *)
Definition value_of {A} (m : M A) : outcome A := fst (m []).
Definition printed_by {A} (m : M A) : list Msg := snd (m []).

(** ** The loader (lines 20-39) *)

(** [next(reader)]: the first row and the rest of the iterator, or
    [StopIteration]. *)
Definition next (reader : list row) : M (row * list row) :=
  match reader with
  | [] => raise StopIteration
  | r :: rest => ret (r, rest)
  end.

(** [row[i]]. *)
Definition getitem (r : row) (i : nat) : M str :=
  match nth_error r i with
  | Some field => ret field
  | None => raise IndexError
  end.

(** [i+2 if has_header else i+1]. *)
Definition row_num_for_warning (has_header : bool) (i : nat) : nat :=
  if has_header then i + 2 else i + 1.

(** Lines 20-26: the iterator after the header skip. *)
Definition skip_header (has_header : bool) (reader : list row) : M (list row) :=
  if has_header then
    try_except
      (x <- next reader ;;
       print HeaderSkipped ;;;
       ret (snd x))
      StopIteration
      (print EmptyAfterHeader ;;;
       ret reader)
  else ret reader.

(** Lines 28-39: the body of the loop, for the row [r] of index [i]. *)
Definition load_row (has_header : bool) (i : nat) (r : row)
    (replacements : list pair) : M (list pair) :=
  if 2 <=? length r then
    f <- getitem r 0 ;;
    let find_text := strip f in
    t <- getitem r 1 ;;
    let replace_text := strip t in
    if is_empty find_text then
      print (EmptyFind (row_num_for_warning has_header i)) ;;;
      ret replacements
    else ret (replacements ++ [(find_text, replace_text)])
  else
    print (InsufficientColumns (row_num_for_warning has_header i) r) ;;;
    ret replacements.

(** Line 27: [for i, row in enumerate(reader)], from index [i]. *)
Fixpoint load_rows (has_header : bool) (i : nat) (reader : list row)
    (replacements : list pair) : M (list pair) :=
  match reader with
  | [] => ret replacements
  | r :: rest =>
      replacements' <- load_row has_header i r replacements ;;
      load_rows has_header (S i) rest replacements'
  end.

Definition loadReplacementPairs (has_header : bool) (reader : list row)
    : M (list pair) :=
  reader' <- skip_header has_header reader ;;
  load_rows has_header 0 reader' [].

(** ** The transformer (lines 47-83) *)

(** Lines 78-81: one pass. *)
Definition replace_pass (content : str) (p : pair) : M str :=
  let '(find_text, replace_text) := p in
  let original_content_len := length content in
  let content' := str_replace content find_text replace_text in
  (if negb (length content' =? original_content_len)
   then print (Replaced find_text replace_text)
   else ret tt) ;;;
  ret content'.

(** Line 77: [for find_text, replace_text in replacements]. *)
Fixpoint replace_loop (content : str) (replacements : list pair) : M str :=
  match replacements with
  | [] => ret content
  | p :: rest =>
      content' <- replace_pass content p ;;
      replace_loop content' rest
  end.

(** Lines 47-83 on the text read from the input file: the text that is
    written to the output file. *)
Definition applyReplacements (content : str) (replacements : list pair)
    : M str :=
  match replacements with
  | [] =>
      print NoValidPairs ;;;
      print InputCopied ;;;
      ret content
  | _ :: _ =>
      print (Performing (length replacements)) ;;;
      replace_loop content replacements
  end.

(** ** The loader and the transformer as plain functions

    What the two loops compute, written without the log: the pairs a list
    of rows gives, the warnings it gives, and the text a list of pairs
    gives.  The theorems below show that the code computes these. *)

(** A row is malformed when it has fewer than two fields or its first
    field is empty once stripped. *)
Definition malformed (r : row) : bool :=
  match r with
  | f :: _ :: _ => is_empty (strip f)
  | _ => true
  end.

Definition row_pairs (r : row) : list pair :=
  match r with
  | f :: t :: _ => if is_empty (strip f) then [] else [(strip f, strip t)]
  | _ => []
  end.

Definition row_warnings (has_header : bool) (i : nat) (r : row) : list Msg :=
  match r with
  | f :: _ :: _ =>
      if is_empty (strip f)
      then [EmptyFind (row_num_for_warning has_header i)]
      else []
  | _ => [InsufficientColumns (row_num_for_warning has_header i) r]
  end.

Definition valid_pairs (rows : list row) : list pair := flat_map row_pairs rows.

Fixpoint warnings_from (has_header : bool) (i : nat) (rows : list row)
    : list Msg :=
  match rows with
  | [] => []
  | r :: rest => row_warnings has_header i r ++ warnings_from has_header (S i) rest
  end.

(** The passes chained: each pair is applied to the text the pairs before
    it left. *)
Definition chained_replace (content : str) (replacements : list pair) : str :=
  fold_left (fun buf p => str_replace buf (fst p) (snd p)) replacements content.

(** No find text of the list occurs in a replace text of the list. *)
Definition no_find_in_replace (replacements : list pair) : bool :=
  forallb (fun p => forallb (fun q => negb (is_infix (fst p) (snd q))) replacements)
          replacements.

(** Every find text of the list is one character long. *)
Definition single_char_finds (replacements : list pair) : bool :=
  forallb (fun p => length (fst p) =? 1) replacements.

(** The first character of a string, if it has one, is not whitespace. *)
Definition hd_not_space (s : str) : bool :=
  match s with
  | [] => true
  | c :: _ => negb (isspace c)
  end.

(** ** Overlap of a find text with a replace text

    A find text [g] overlaps a replace text [r] when, for some texts around
    [r], an occurrence of [g] in the whole lies neither before [r] nor
    after it: [g] begins inside [r], or begins before [r] and reaches into
    it or across it.  [starts_with a b] reads: [a] begins [b]. *)

(** One of the two texts begins the other. *)
Definition compat (a b : str) : bool := starts_with a b || starts_with b a.

(** [g] can begin inside [r]: some non-empty end of [r] begins [g] or is
    begun by [g] (then [g] occurs in [r]). *)
Fixpoint clash_in (g r : str) : bool :=
  match r with
  | [] => false
  | _ :: r' => compat r g || clash_in g r'
  end.

(** Some non-empty end of [g'] begins [r] or is begun by [r]. *)
Fixpoint suffix_clash (g' r : str) : bool :=
  match g' with
  | [] => false
  | _ :: g'' => compat g' r || suffix_clash g'' r
  end.

(** [g] can begin before [r] and reach it: some non-empty end of [g],
    other than [g] itself, begins [r] or is begun by [r] (for the empty
    [r]: [g] has two characters or more). *)
Definition clash_tail (g r : str) : bool :=
  match g with
  | [] => false
  | _ :: g' => suffix_clash g' r
  end.

Definition overlaps (g r : str) : bool := clash_in g r || clash_tail g r.

(** No find text of the list overlaps a replace text of the list. *)
Definition no_find_overlaps_replace (replacements : list pair) : bool :=
  forallb (fun p => forallb (fun q => negb (overlaps (fst p) (snd q))) replacements)
          replacements.

(** The pieces of [s] between the occurrences that the scan of
    [s.replace(f, new)] replaces, for a non-empty [f]: the scan returns
    these pieces joined by [new], and [s] is these pieces joined by [f]. *)
Fixpoint segments (f : str) (skip : nat) (s : str) : list str :=
  match s with
  | [] => [[]]
  | c :: s' =>
      match skip with
      | S k => segments f k s'
      | O =>
          if starts_with f s
          then [] :: segments f (length f - 1) s'
          else match segments f 0 s' with
               | u :: us => (c :: u) :: us
               | [] => [[c]]
               end
      end
  end.

Fixpoint join_with (r : str) (us : list str) : str :=
  match us with
  | [] => []
  | u :: us' =>
      match us' with
      | [] => u
      | _ :: _ => u ++ r ++ join_with r us'
      end
  end.

(** ** The main block: the default output path (lines 138-146)

    [os.path.split], [os.path.splitext] and [os.path.join] as [posixpath]
    defines them, on the strings of this development. *)

Module OsPath.

Definition sep : char := 47%N.      (* "/" *)
Definition extsep : char := 46%N.   (* "." *)

(** [p.rfind(c)] for a one-character [c]: the index of the last [c] in [p],
    or -1.  [i] is the index of the first character of [p], [last] the
    index of the last [c] seen so far. *)
Fixpoint rfind_from (c : char) (p : str) (i last : Z) : Z :=
  match p with
  | [] => last
  | d :: p' => rfind_from c p' (i + 1) (if (d =? c)%N then i else last)
  end.

Definition rfind (p : str) (c : char) : Z := rfind_from c p 0 (-1).

(** [p[:i]], [p[i:]] and [p[i:j]] for indices [0 <= i <= j]. *)
Definition slice_to (p : str) (i : Z) : str := firstn (Z.to_nat i) p.
Definition slice_from (p : str) (i : Z) : str := skipn (Z.to_nat i) p.
Definition slice (p : str) (i j : Z) : str :=
  firstn (Z.to_nat (j - i)) (skipn (Z.to_nat i) p).

(** [s.endswith(c)] and [s.rstrip(c)] for a one-character [c]. *)
Definition ends_with (c : char) (s : str) : bool :=
  match rev s with
  | [] => false
  | d :: _ => (d =? c)%N
  end.

Fixpoint lstrip_char (c : char) (s : str) : str :=
  match s with
  | [] => []
  | d :: s' => if (d =? c)%N then lstrip_char c s' else s
  end.

Definition rstrip_char (c : char) (s : str) : str :=
  rev (lstrip_char c (rev s)).

(** [head != sep*len(head)]: some character of [head] is not [sep]. *)
Definition all_sep (head : str) : bool := forallb (fun d => (d =? sep)%N) head.

(** [os.path.split(p)]. *)
Definition split (p : str) : str * str :=
  let i := (rfind p sep + 1)%Z in
  let head := slice_to p i in
  let tail := slice_from p i in
  let head :=
    if negb (is_empty head) && negb (all_sep head)
    then rstrip_char sep head
    else head in
  (head, tail).

(** [os.path.splitext(p)]: the extension starts at the last dot, unless
    that dot is before the last separator or has only dots between the
    separator and itself. *)
Definition splitext (p : str) : str * str :=
  let sepIndex := rfind p sep in
  let dotIndex := rfind p extsep in
  if (sepIndex <? dotIndex)%Z then
    if existsb (fun d => negb (d =? extsep)%N) (slice p (sepIndex + 1) dotIndex)
    then (slice_to p dotIndex, slice_from p dotIndex)
    else (p, [])
  else (p, []).

(** [os.path.join(a, b)]. *)
Definition join (a b : str) : str :=
  if starts_with [sep] b then b
  else if is_empty a || ends_with sep a then a ++ b
  else a ++ [sep] ++ b.

End OsPath.

(** Lines 138-142: the output path suggested for an input path. *)
Definition suggested_output_filename (input_text_file_path : str) : str :=
  let '(input_dir, input_filename) := OsPath.split input_text_file_path in
  let '(input_name_part, input_ext_part) := OsPath.splitext input_filename in
  let suggested_output_dir :=
    if is_empty input_dir then py "." else input_dir in
  OsPath.join suggested_output_dir
    (input_name_part ++ py "_modified" ++ input_ext_part).

(** Lines 145-146: the output path, from the line the user typed. *)
Definition output_text_file_path (answer : str) (suggested : str) : str :=
  let output_text_file_path_input := strip answer in
  if is_empty output_text_file_path_input
  then suggested
  else output_text_file_path_input.

(** ** Running the monad *)

Lemma bind_ok A B (m : M A) (k : A -> M B) out a out' :
  m out = (Ok a, out') -> bind m k out = k a out'.
Proof. unfold bind; intros ->; reflexivity. Qed.

Lemma bind_print B (msg : Msg) (k : unit -> M B) out :
  bind (print msg) k out = k tt (out ++ [msg]).
Proof. reflexivity. Qed.

Lemma bind_ret A B (a : A) (k : A -> M B) out :
  bind (ret a) k out = k a out.
Proof. reflexivity. Qed.

(** ** Stripping *)

Lemma lstrip_split (s : str) :
  exists l, s = l ++ lstrip s /\ forallb isspace l = true.
Proof.
  induction s as [|c s IH]; simpl.
  - exists []; auto.
  - destruct (isspace c) eqn:E.
    + destruct IH as (l & Hs & Hl).
      exists (c :: l); simpl; rewrite E, Hl; split; [congruence | reflexivity].
    + exists []; auto.
Qed.

Lemma lstrip_hd (s : str) : hd_not_space (lstrip s) = true.
Proof.
  induction s as [|c s IH]; simpl; auto.
  destruct (isspace c) eqn:E; simpl; auto. now rewrite E.
Qed.

Lemma forallb_rev A (f : A -> bool) (l : list A) :
  forallb f (rev l) = forallb f l.
Proof.
  induction l as [|a l IH]; simpl; auto.
  rewrite forallb_app, IH; simpl. rewrite andb_true_r. apply andb_comm.
Qed.

Lemma rstrip_split (s : str) :
  exists t, s = rstrip s ++ t /\ forallb isspace t = true.
Proof.
  unfold rstrip. destruct (lstrip_split (rev s)) as (l & Hs & Hl).
  exists (rev l). rewrite forallb_rev. split; auto.
  rewrite <- rev_app_distr, <- Hs. symmetry; apply rev_involutive.
Qed.

Lemma rstrip_last (s : str) : hd_not_space (rev (rstrip s)) = true.
Proof. unfold rstrip. rewrite rev_involutive. apply lstrip_hd. Qed.

Lemma rstrip_hd (s : str) : hd_not_space s = true -> hd_not_space (rstrip s) = true.
Proof.
  intros H. destruct (rstrip_split s) as (t & Hs & _).
  destruct (rstrip s) as [|c u]; auto.
  rewrite Hs in H. exact H.
Qed.

Lemma strip_split (s : str) :
  exists l t, s = l ++ strip s ++ t
              /\ forallb isspace l = true /\ forallb isspace t = true.
Proof.
  destruct (lstrip_split s) as (l & Hs & Hl).
  destruct (rstrip_split (lstrip s)) as (t & Ht & Hsp).
  exists l, t. unfold strip. rewrite <- Ht. auto.
Qed.

Lemma strip_no_outer_space (s : str) :
  hd_not_space (strip s) = true /\ hd_not_space (rev (strip s)) = true.
Proof.
  unfold strip; split.
  - apply rstrip_hd, lstrip_hd.
  - apply rstrip_last.
Qed.

(** ** The loader computes [valid_pairs] and [warnings_from] *)

Lemma load_row_run has_header i r replacements out :
  load_row has_header i r replacements out
  = (Ok (replacements ++ row_pairs r), out ++ row_warnings has_header i r).
Proof.
  destruct r as [|f [|t rest]]; unfold load_row; simpl.
  - now rewrite app_nil_r.
  - now rewrite app_nil_r.
  - unfold bind, getitem; simpl.
    destruct (is_empty (strip f)); simpl; now rewrite ?app_nil_r.
Qed.

Lemma load_rows_run has_header rows : forall i replacements out,
  load_rows has_header i rows replacements out
  = (Ok (replacements ++ valid_pairs rows),
     out ++ warnings_from has_header i rows).
Proof.
  induction rows as [|r rest IH]; intros i replacements out; simpl.
  - now rewrite !app_nil_r.
  - erewrite bind_ok by apply load_row_run.
    rewrite IH. unfold valid_pairs; simpl. now rewrite !app_assoc.
Qed.

Lemma load_no_header_run rows out :
  loadReplacementPairs false rows out
  = (Ok (valid_pairs rows), out ++ warnings_from false 0 rows).
Proof.
  unfold loadReplacementPairs; simpl. rewrite bind_ret.
  apply load_rows_run.
Qed.

Lemma load_header_run hdr rest out :
  loadReplacementPairs true (hdr :: rest) out
  = (Ok (valid_pairs rest), out ++ HeaderSkipped :: warnings_from true 0 rest).
Proof.
  unfold loadReplacementPairs, bind; simpl.
  rewrite load_rows_run; simpl. now rewrite <- app_assoc.
Qed.

Lemma load_header_empty_run out :
  loadReplacementPairs true [] out = (Ok [], out ++ [EmptyAfterHeader]).
Proof. reflexivity. Qed.

Lemma valid_pairs_app rows1 rows2 :
  valid_pairs (rows1 ++ rows2) = valid_pairs rows1 ++ valid_pairs rows2.
Proof. apply flat_map_app. Qed.

Lemma warnings_from_app has_header rows1 rows2 : forall i,
  warnings_from has_header i (rows1 ++ rows2)
  = warnings_from has_header i rows1
    ++ warnings_from has_header (length rows1 + i) rows2.
Proof.
  induction rows1 as [|r rest IH]; intros i; simpl; auto.
  rewrite IH, <- app_assoc. do 3 f_equal. lia.
Qed.

Lemma malformed_no_pair r : malformed r = true -> row_pairs r = [].
Proof.
  destruct r as [|f [|t rest]]; simpl; auto. now intros ->.
Qed.

Lemma malformed_one_warning has_header i r :
  malformed r = true ->
  exists w, row_warnings has_header i r = [w]
            /\ is_warning w = true
            /\ msg_row w = Some (row_num_for_warning has_header i).
Proof.
  destruct r as [|f [|t rest]]; simpl.
  - eexists; repeat split.
  - eexists; repeat split.
  - intros ->. eexists; repeat split.
Qed.

(** ** [str.replace] *)

Lemma starts_with_self (old t : str) : starts_with old (old ++ t) = true.
Proof.
  induction old as [|a old IH]; simpl; auto.
  now rewrite N.eqb_refl, IH.
Qed.

Lemma replace_scan_skip (old new w t : str) :
  replace_scan old new (length w) (w ++ t) = replace_scan old new 0 t.
Proof.
  induction w as [|a w IH]; simpl; auto.
Qed.

Lemma replace_scan_hit (a : char) (old' new t : str) :
  replace_scan (a :: old') new 0 ((a :: old') ++ t)
  = new ++ replace_scan (a :: old') new 0 t.
Proof.
  change ((a :: old') ++ t) with (a :: (old' ++ t)).
  pose proof (starts_with_self (a :: old') t) as H.
  change ((a :: old') ++ t) with (a :: (old' ++ t)) in H.
  cbn [replace_scan]. rewrite H.
  cbn [length]. rewrite Nat.sub_1_r; cbn [Nat.pred].
  now rewrite replace_scan_skip.
Qed.

Lemma replace_scan_miss (old new : str) (d : char) (t : str) :
  starts_with old (d :: t) = false ->
  replace_scan old new 0 (d :: t) = d :: replace_scan old new 0 t.
Proof. intros H. cbn [replace_scan]. now rewrite H. Qed.

Lemma replace_scan_leftmost (a : char) (old' new u t : str) :
  (forall k, k < length u ->
             starts_with (a :: old') (skipn k (u ++ (a :: old') ++ t)) = false) ->
  replace_scan (a :: old') new 0 (u ++ (a :: old') ++ t)
  = u ++ new ++ replace_scan (a :: old') new 0 t.
Proof.
  induction u as [|d u IH]; intros H.
  - apply replace_scan_hit.
  - change ((d :: u) ++ (a :: old') ++ t) with (d :: (u ++ (a :: old') ++ t)).
    rewrite replace_scan_miss.
    + rewrite IH; auto.
      intros k Hk. apply (H (S k)). simpl; lia.
    + apply (H 0). simpl; lia.
Qed.

Lemma replace_scan_absent (old new s : str) :
  is_infix old s = false -> replace_scan old new 0 s = s.
Proof.
  induction s as [|d s IH]; intros H; auto.
  cbn [is_infix] in H. apply orb_false_iff in H as [H1 H2].
  rewrite replace_scan_miss by exact H1. now rewrite IH.
Qed.

Lemma is_infix_empty (s : str) : is_infix [] s = true.
Proof. destruct s; reflexivity. Qed.

Lemma str_replace_absent (s old new : str) :
  is_infix old s = false -> str_replace s old new = s.
Proof.
  destruct old as [|a old']; intros H.
  - now rewrite is_infix_empty in H.
  - now apply replace_scan_absent.
Qed.

(** *** One-character find texts *)

Lemma is_infix_char (c : char) (s : str) :
  is_infix [c] s = existsb (N.eqb c) s.
Proof.
  induction s as [|d s IH]; auto.
  cbn [is_infix existsb starts_with]. now rewrite andb_true_r, IH.
Qed.

Lemma is_infix_char_app (c : char) (s t : str) :
  is_infix [c] (s ++ t) = is_infix [c] s || is_infix [c] t.
Proof. rewrite !is_infix_char. apply existsb_app. Qed.

(** A character that is not in the replace text and is either the find
    character or not in the buffer is not in the buffer after the pass. *)
Lemma replace_char_absent (x c : char) (new s : str) :
  is_infix [x] new = false ->
  x = c \/ is_infix [x] s = false ->
  is_infix [x] (str_replace s [c] new) = false.
Proof.
  intros Hnew Hx. unfold str_replace.
  induction s as [|d s IH]; auto.
  cbn [replace_scan starts_with length]. rewrite andb_true_r.
  assert (Htail : x = c \/ is_infix [x] s = false).
  { destruct Hx as [Hx|Hx]; [now left|right].
    rewrite is_infix_char in *. cbn [existsb] in Hx.
    now apply orb_false_iff in Hx. }
  destruct (c =? d)%N eqn:E.
  - cbn [Nat.sub]. rewrite is_infix_char_app, Hnew. now apply IH.
  - change (d :: replace_scan [c] new 0 s) with ([d] ++ replace_scan [c] new 0 s).
    rewrite is_infix_char_app, (IH Htail), orb_false_r.
    rewrite is_infix_char; cbn [existsb]; rewrite orb_false_r.
    destruct Hx as [->|Hx]; auto.
    rewrite is_infix_char in Hx. cbn [existsb] in Hx.
    now apply orb_false_iff in Hx.
Qed.

(** ** The transformer computes [chained_replace] *)

Lemma replace_pass_run content p out :
  exists msgs,
    replace_pass content p out
    = (Ok (str_replace content (fst p) (snd p)), out ++ msgs).
Proof.
  destruct p as [find_text replace_text]; unfold replace_pass; simpl.
  destruct (negb _).
  - eexists. rewrite bind_print. reflexivity.
  - exists []. rewrite bind_ret, app_nil_r. reflexivity.
Qed.

Lemma replace_loop_run replacements : forall content out,
  exists msgs,
    replace_loop content replacements out
    = (Ok (chained_replace content replacements), out ++ msgs).
Proof.
  induction replacements as [|p rest IH]; intros content out; simpl.
  - exists []. now rewrite app_nil_r.
  - destruct (replace_pass_run content p out) as (m1 & H1).
    erewrite bind_ok by exact H1.
    destruct (IH (str_replace content (fst p) (snd p)) (out ++ m1)) as (m2 & H2).
    exists (m1 ++ m2). now rewrite H2, app_assoc.
Qed.

Lemma applyReplacements_run content replacements out :
  exists msgs,
    applyReplacements content replacements out
    = (Ok (chained_replace content replacements), out ++ msgs).
Proof.
  destruct replacements as [|p rest]; unfold applyReplacements.
  - eexists. rewrite !bind_print. unfold ret; simpl.
    rewrite <- app_assoc. reflexivity.
  - rewrite bind_print.
    destruct (replace_loop_run (p :: rest) content (out ++ [Performing (length (p :: rest))]))
      as (m & H).
    exists (Performing (length (p :: rest)) :: m).
    rewrite H. now rewrite <- app_assoc.
Qed.

Lemma applyReplacements_value content replacements out :
  fst (applyReplacements content replacements out)
  = Ok (chained_replace content replacements).
Proof.
  destruct (applyReplacements_run content replacements out) as (m & ->).
  reflexivity.
Qed.

Lemma chained_replace_app content ps1 ps2 :
  chained_replace content (ps1 ++ ps2)
  = chained_replace (chained_replace content ps1) ps2.
Proof. apply fold_left_app. Qed.

(** Pairs whose find texts are all absent from the text leave it as it
    is. *)
Lemma chained_replace_absent replacements : forall content,
  (forall p, In p replacements -> is_infix (fst p) content = false) ->
  chained_replace content replacements = content.
Proof.
  induction replacements as [|p rest IH]; intros content H; auto.
  unfold chained_replace; simpl.
  rewrite str_replace_absent by (apply H; now left).
  apply IH. intros q Hq. apply H. now right.
Qed.

(** A character that no replace text holds, and that is a find text of the
    list or is not in the text, is not in the transformed text. *)
Lemma chained_replace_char_absent (x : char) replacements : forall content,
  single_char_finds replacements = true ->
  (forall q, In q replacements -> is_infix [x] (snd q) = false) ->
  (exists r, In ([x], r) replacements) \/ is_infix [x] content = false ->
  is_infix [x] (chained_replace content replacements) = false.
Proof.
  induction replacements as [|p rest IH]; intros content Hone Hnew Hx.
  - destruct Hx as [(r & [])|Hx]; exact Hx.
  - cbn [single_char_finds forallb] in Hone.
    apply andb_true_iff in Hone as [Hp Hrest].
    destruct p as [f r]. cbn [fst] in Hp.
    destruct f as [|c [|c' f']]; try discriminate.
    unfold chained_replace; cbn [fold_left fst snd].
    apply IH; auto.
    + intros q Hq. apply Hnew. now right.
    + destruct Hx as [(r' & [Heq|Hin])|Hx].
      * right. injection Heq as -> ->.
        apply replace_char_absent; [|now left].
        apply (Hnew ([x], r')). now left.
      * left. now exists r'.
      * right. apply replace_char_absent; [|now right].
        apply (Hnew ([c], r)). now left.
Qed.

(** ** The transformer *)

(** C1: with an empty list of pairs the transformer returns the text it was
    given, whatever the text. *)
Theorem C1_empty_list_passthrough (content : str) (out : list Msg) :
  fst (applyReplacements content [] out) = Ok content.
Proof. reflexivity. Qed.

(** C2: the pairs are applied in list order and each pass works on the text
    the pass before it produced: the result for a list is the result of the
    rest of the list on the text after the first pair's pass.  So
    [("a","b"); ("b","c")] turns "a" into "c", not into "b". *)
Theorem C2_pairs_chain_in_order :
  (forall content find_text replace_text rest out,
      fst (applyReplacements content ((find_text, replace_text) :: rest) out)
      = Ok (chained_replace (str_replace content find_text replace_text) rest))
  /\ (forall content ps1 ps2 out,
         fst ((mid <- applyReplacements content ps1 ;;
               applyReplacements mid ps2) out)
         = fst (applyReplacements content (ps1 ++ ps2) out))
  /\ value_of (applyReplacements (py "a") [(py "a", py "b"); (py "b", py "c")])
     = Ok (py "c")
  /\ value_of (applyReplacements (py "a") [(py "a", py "b"); (py "b", py "c")])
     <> Ok (py "b").
Proof.
  repeat split.
  - intros. now rewrite applyReplacements_value.
  - intros content ps1 ps2 out.
    destruct (applyReplacements_run content ps1 out) as (m & H).
    erewrite bind_ok by exact H.
    now rewrite !applyReplacements_value, chained_replace_app.
  - vm_compute. discriminate.
Qed.

(** C3: one pass replaces the occurrences of a non-empty find text from left
    to right without overlap: when the first occurrence in the text starts
    after the prefix [u], the result is [u], the replace text, and the pass
    on what follows the occurrence; a text without occurrence is left as it
    is.  So [("aa","a")] turns "aaaa" into "aa", not into "a". *)
Theorem C3_pass_is_leftmost_non_overlapping :
  (forall (a : char) (old' new u t : str),
      (forall k, k < length u ->
                 starts_with (a :: old') (skipn k (u ++ (a :: old') ++ t)) = false) ->
      str_replace (u ++ (a :: old') ++ t) (a :: old') new
      = u ++ new ++ str_replace t (a :: old') new)
  /\ (forall s old new : str,
         is_infix old s = false -> str_replace s old new = s)
  /\ value_of (applyReplacements (py "aaaa") [(py "aa", py "a")]) = Ok (py "aa")
  /\ value_of (applyReplacements (py "aaaa") [(py "aa", py "a")]) <> Ok (py "a").
Proof.
  repeat split.
  - intros. now apply replace_scan_leftmost.
  - apply str_replace_absent.
  - vm_compute. discriminate.
Qed.

Lemma C3_pass_witness :
  str_replace (py "baaaaa") (py "aa") (py "X") = py "bXXa"
  /\ str_replace (py "abc") (py "ac") (py "X") = py "abc".
Proof.
  destruct C3_pass_is_leftmost_non_overlapping as (Hleft & Habsent & _).
  split.
  - change (py "baaaaa") with (py "b" ++ py "aa" ++ py "aaa").
    change (py "aa") with (97%N :: py "a").
    rewrite Hleft.
    + reflexivity.
    + intros k Hk. destruct k; [reflexivity | simpl in Hk; lia].
  - apply Habsent. reflexivity.
Defined.

(** C4, as the spec states it, fails: "ab" is not a substring of "a", yet
    [("ab","a")] turns "abb" into "ab" and "ab" into "a". *)
Lemma C4_disjoint_pairs_not_idempotent :
  no_find_in_replace [(py "ab", py "a")] = true
  /\ fst ((once <- applyReplacements (py "abb") [(py "ab", py "a")] ;;
           applyReplacements once [(py "ab", py "a")]) [])
     <> fst (applyReplacements (py "abb") [(py "ab", py "a")] []).
Proof. split; [reflexivity | vm_compute; discriminate]. Qed.

(** ** The loader *)

(** C5: a malformed row is skipped with one warning that names its 1-based
    position among the rows (the header, if any, counted), and the load goes
    on: the pairs are those of the rows around it, in order.  The rows
    [["x"]; ["find";"repl"]] without header give [("find","repl")] and the
    single warning for row 1. *)
Theorem C5_malformed_row_skipped_with_warning :
  (forall (has_header : bool) (before : list row) (bad : row) (after : list row),
      malformed bad = true ->
      (has_header = true -> before <> []) ->
      value_of (loadReplacementPairs has_header (before ++ bad :: after))
      = Ok (valid_pairs (if has_header then tl before else before)
            ++ valid_pairs after)
      /\ value_of (loadReplacementPairs has_header (before ++ bad :: after))
         = value_of (loadReplacementPairs has_header (before ++ after))
      /\ exists w later,
          printed_by (loadReplacementPairs has_header (before ++ bad :: after))
          = printed_by (loadReplacementPairs has_header before) ++ w :: later
          /\ is_warning w = true
          /\ msg_row w = Some (length before + 1))
  /\ loadReplacementPairs false [[py "x"]; [py "find"; py "repl"]] []
     = (Ok [(py "find", py "repl")], [InsufficientColumns 1 [py "x"]])
  /\ is_warning (InsufficientColumns 1 [py "x"]) = true.
Proof.
  split; [|split; reflexivity].
  intros has_header before bad after Hbad Hhdr.
  unfold value_of, printed_by.
  destruct has_header.
  - destruct before as [|hdr before]; [now destruct Hhdr|].
    cbn [tl app]. rewrite !load_header_run. cbn [fst snd app].
    rewrite !valid_pairs_app. cbn [valid_pairs flat_map].
    rewrite (malformed_no_pair _ Hbad). cbn [app].
    repeat split.
    rewrite warnings_from_app. cbn [warnings_from].
    destruct (malformed_one_warning true (length before + 0) _ Hbad)
      as (w & -> & Hw & Hrow).
    exists w. eexists. repeat split; eauto.
    rewrite Hrow. unfold row_num_for_warning. cbn [length]. f_equal; lia.
  - rewrite !load_no_header_run. cbn [fst snd app].
    rewrite !valid_pairs_app. cbn [valid_pairs flat_map].
    rewrite (malformed_no_pair _ Hbad). cbn [app].
    repeat split.
    rewrite warnings_from_app. cbn [warnings_from].
    destruct (malformed_one_warning false (length before + 0) _ Hbad)
      as (w & -> & Hw & Hrow).
    exists w. eexists. repeat split; eauto.
    rewrite Hrow. unfold row_num_for_warning. f_equal; lia.
Qed.

Lemma C5_malformed_row_witness :
  value_of (loadReplacementPairs true
              ([[py "find"; py "replace"]; [py "a"; py "b"]]
               ++ [py "  "; py "x"] :: [[py "c"; py "d"]]))
  = Ok ([(py "a", py "b")] ++ [(py "c", py "d")]).
Proof.
  destruct C5_malformed_row_skipped_with_warning as (H & _).
  apply (H true [[py "find"; py "replace"]; [py "a"; py "b"]]
           [py "  "; py "x"] [[py "c"; py "d"]]).
  - reflexivity.
  - discriminate.
Defined.

(** C7, as the spec states it, fails: for the rows [["h1";"h2"]] with a
    header the loader prints that the header was skipped and no warning. *)
Lemma C7_header_only_gives_no_warning :
  ~ (exists w, In w (printed_by (loadReplacementPairs true [[py "h1"; py "h2"]]))
               /\ is_warning w = true).
Proof.
  intros (w & Hin & Hw). vm_compute in Hin.
  destruct Hin as [<-|[]]. discriminate.
Qed.

(** C7, amended: with a header the loader discards the first row and loads
    the rest.  When there is no row at all it returns the empty list with a
    warning and no exception; when the header is the only row it returns the
    empty list and prints that the header was skipped, which is not a
    warning. *)
Theorem C7_header_skip :
  (forall hdr rest out,
      fst (loadReplacementPairs true (hdr :: rest) out)
      = fst (loadReplacementPairs false rest out))
  /\ (forall out,
         loadReplacementPairs true [] out = (Ok [], out ++ [EmptyAfterHeader]))
  /\ is_warning EmptyAfterHeader = true
  /\ loadReplacementPairs true [[py "h1"; py "h2"]] [] = (Ok [], [HeaderSkipped])
  /\ is_warning HeaderSkipped = false.
Proof.
  repeat split.
  intros. now rewrite load_header_run, load_no_header_run.
Qed.

(** C10: a row with more than two fields is loaded as the row of its first
    two fields: the loader returns and prints the same with and without the
    fields after the second, and when the stripped first field is not empty
    the row gives its pair and no message. *)
Theorem C10_extra_fields_ignored :
  (forall has_header before (f t : str) (extra : row) after out,
      loadReplacementPairs has_header (before ++ (f :: t :: extra) :: after) out
      = loadReplacementPairs has_header (before ++ [f; t] :: after) out)
  /\ (forall (f t : str) (extra : row) out,
         is_empty (strip f) = false ->
         loadReplacementPairs false [f :: t :: extra] out
         = (Ok [(strip f, strip t)], out)).
Proof.
  assert (Hsame : forall has_header i before (f t : str) extra after,
             valid_pairs (before ++ (f :: t :: extra) :: after)
             = valid_pairs (before ++ [f; t] :: after)
             /\ warnings_from has_header i (before ++ (f :: t :: extra) :: after)
                = warnings_from has_header i (before ++ [f; t] :: after)).
  { intros. rewrite !valid_pairs_app, !warnings_from_app. split; reflexivity. }
  split.
  - intros [] before f t extra after out.
    + destruct before as [|hdr before]; cbn [app].
      * now rewrite !load_header_run.
      * rewrite !load_header_run.
        destruct (Hsame true 0 before f t extra after) as [-> ->]. reflexivity.
    + rewrite !load_no_header_run.
      destruct (Hsame false 0 before f t extra after) as [-> ->]. reflexivity.
  - intros f t extra out Hf. rewrite load_no_header_run.
    cbn [valid_pairs flat_map row_pairs warnings_from row_warnings].
    rewrite Hf. cbn [app]. now rewrite app_nil_r.
Qed.

Lemma C10_extra_fields_witness :
  loadReplacementPairs false [[py " k "; py "v"; py "note"; py ""]] []
  = (Ok [(strip (py " k "), strip (py "v"))], []).
Proof.
  destruct C10_extra_fields_ignored as (_ & H).
  apply H. reflexivity.
Defined.

(** ** More on stripping *)

Lemma lstrip_fixed (s : str) : hd_not_space s = true -> lstrip s = s.
Proof.
  destruct s as [|c s]; simpl; auto.
  intros H. apply negb_true_iff in H. now rewrite H.
Qed.

Lemma strip_fixed (s : str) :
  hd_not_space s = true -> hd_not_space (rev s) = true -> strip s = s.
Proof.
  intros H1 H2. unfold strip, rstrip.
  rewrite (lstrip_fixed s H1), (lstrip_fixed (rev s) H2).
  apply rev_involutive.
Qed.

Lemma strip_idempotent (s : str) : strip (strip s) = strip s.
Proof.
  destruct (strip_no_outer_space s) as [H1 H2]. now apply strip_fixed.
Qed.

Lemma lstrip_all_space (s : str) : forallb isspace s = true -> lstrip s = [].
Proof.
  induction s as [|c s IH]; simpl; auto.
  intros H. apply andb_true_iff in H as [Hc Hs]. rewrite Hc. auto.
Qed.

Lemma strip_empty_iff (s : str) :
  is_empty (strip s) = true <-> forallb isspace s = true.
Proof.
  split; intros H.
  - destruct (strip_split s) as (l & t & Hs & Hl & Ht).
    destruct (strip s); [|discriminate].
    rewrite Hs, forallb_app, Hl. exact Ht.
  - unfold strip. now rewrite (lstrip_all_space s H).
Qed.

(** ** More on the loader *)

(** What the loader keeps of a row is a pair of stripped fields with a
    non-empty first one. *)
Lemma row_pairs_stripped (r : row) :
  Forall (fun p : pair => is_empty (fst p) = false
                          /\ strip (fst p) = fst p /\ strip (snd p) = snd p)
         (row_pairs r).
Proof.
  destruct r as [|f [|t rest]]; simpl; auto.
  destruct (is_empty (strip f)) eqn:E; auto.
  constructor; auto. cbn [fst snd].
  now rewrite !strip_idempotent.
Qed.

Lemma valid_pairs_stripped (rows : list row) :
  Forall (fun p : pair => is_empty (fst p) = false
                          /\ strip (fst p) = fst p /\ strip (snd p) = snd p)
         (valid_pairs rows).
Proof.
  induction rows as [|r rest IH]; unfold valid_pairs; simpl; auto.
  apply Forall_app. split; [apply row_pairs_stripped | exact IH].
Qed.

(** The pairs of the rows that the loader reads after the header. *)
Lemma load_value has_header rows :
  value_of (loadReplacementPairs has_header rows)
  = Ok (valid_pairs (if has_header then tl rows else rows)).
Proof.
  unfold value_of. destruct has_header; [destruct rows as [|hdr rest]|].
  - reflexivity.
  - now rewrite load_header_run.
  - now rewrite load_no_header_run.
Qed.

Lemma row_accounting has_header i (r : row) :
  length (row_pairs r) + length (filter is_warning (row_warnings has_header i r)) = 1.
Proof.
  destruct r as [|f [|t rest]]; simpl; auto.
  destruct (is_empty (strip f)); reflexivity.
Qed.

Lemma rows_accounting has_header (rows : list row) : forall i,
  length (valid_pairs rows)
  + length (filter is_warning (warnings_from has_header i rows))
  = length rows.
Proof.
  induction rows as [|r rest IH]; intros i; auto.
  unfold valid_pairs in *. cbn [flat_map warnings_from length].
  rewrite filter_app, !length_app.
  pose proof (row_accounting has_header i r). specialize (IH (S i)). lia.
Qed.

Lemma warnings_from_rows has_header (rows : list row) : forall i n,
  (exists w, In w (warnings_from has_header i rows) /\ msg_row w = Some n)
  <-> (exists k r, nth_error rows k = Some r /\ malformed r = true
                   /\ n = row_num_for_warning has_header (i + k)).
Proof.
  induction rows as [|r rest IH]; intros i n.
  - split.
    + intros (w & [] & _).
    + intros (k & r & H & _). destruct k; discriminate.
  - cbn [warnings_from]. split.
    + intros (w & Hin & Hrow). apply in_app_or in Hin as [Hin|Hin].
      * exists 0, r. rewrite Nat.add_0_r.
        destruct r as [|f [|t more]]; simpl in *.
        -- destruct Hin as [<-|[]]. simpl in Hrow. injection Hrow as <-. auto.
        -- destruct Hin as [<-|[]]. simpl in Hrow. injection Hrow as <-. auto.
        -- destruct (is_empty (strip f)); [|destruct Hin].
           destruct Hin as [<-|[]]. simpl in Hrow. injection Hrow as <-. auto.
      * destruct (proj1 (IH (S i) n)) as (k & r' & Hk & Hbad & Hn); [eauto|].
        exists (S k), r'. repeat split; auto.
        rewrite Hn. f_equal. lia.
    + intros (k & r' & Hk & Hbad & Hn). destruct k as [|k].
      * injection Hk as <-. rewrite Nat.add_0_r in Hn.
        destruct (malformed_one_warning has_header i r Hbad) as (w & Hw & _ & Hrow).
        exists w. rewrite Hw. split; [now left | congruence].
      * destruct (proj2 (IH (S i) n)) as (w & Hin & Hrow).
        { exists k, r'. repeat split; auto. rewrite Hn. f_equal. lia. }
        exists w. split; auto. apply in_or_app. now right.
Qed.

Lemma warnings_from_header_shift (rows : list row) : forall i,
  map msg_row (warnings_from true i rows)
  = map (option_map S) (map msg_row (warnings_from false i rows)).
Proof.
  induction rows as [|r rest IH]; intros i; auto.
  cbn [warnings_from]. rewrite !map_app, IH. f_equal.
  unfold row_warnings, row_num_for_warning.
  destruct r as [|f [|t more]]; simpl;
    try destruct (is_empty (strip f)); simpl; repeat f_equal; lia.
Qed.

Lemma valid_pairs_filter_map (rows : list row) :
  valid_pairs rows
  = map (fun r => (strip (nth 0 r []), strip (nth 1 r [])))
        (filter (fun r => negb (malformed r)) rows).
Proof.
  induction rows as [|r rest IH]; auto.
  unfold valid_pairs in *. cbn [flat_map filter]. rewrite IH.
  destruct r as [|f [|t more]]; simpl; auto.
  destruct (is_empty (strip f)); reflexivity.
Qed.

Lemma reload_stripped (ps : list pair) : forall out,
  Forall (fun p : pair => is_empty (fst p) = false
                          /\ strip (fst p) = fst p /\ strip (snd p) = snd p) ps ->
  loadReplacementPairs false (map (fun p : pair => [fst p; snd p]) ps) out
  = (Ok ps, out).
Proof.
  intros out H. rewrite load_no_header_run.
  assert (Hp : valid_pairs (map (fun p : pair => [fst p; snd p]) ps) = ps
               /\ forall i, warnings_from false i (map (fun p : pair => [fst p; snd p]) ps) = []).
  { induction H as [|[f t] ps (Hne & Hf & Ht) _ [IH1 IH2]]; [split; auto|].
    cbn [fst snd] in *. unfold valid_pairs in *.
    cbn [map flat_map warnings_from row_pairs row_warnings fst snd].
    rewrite Hf, Ht, Hne, IH1. split; auto. intros i. now rewrite IH2. }
  destruct Hp as [-> Hw]. now rewrite Hw, app_nil_r.
Qed.

Lemma load_printed has_header rows :
  printed_by (loadReplacementPairs has_header rows)
  = match has_header, rows with
    | true, [] => [EmptyAfterHeader]
    | true, _ :: rest => HeaderSkipped :: warnings_from true 0 rest
    | false, _ => warnings_from false 0 rows
    end.
Proof.
  unfold printed_by. destruct has_header; [destruct rows as [|hdr rest]|].
  - reflexivity.
  - now rewrite load_header_run.
  - now rewrite load_no_header_run.
Qed.

(** X1: every pair the loader returns has a non-empty find text, and its
    two texts are stripped: stripping them again changes nothing. *)
Theorem loader_pairs_nonempty_and_stripped (has_header : bool) (rows : list row) :
  exists ps,
    value_of (loadReplacementPairs has_header rows) = Ok ps
    /\ Forall (fun p : pair => is_empty (fst p) = false
                               /\ strip (fst p) = fst p /\ strip (snd p) = snd p)
              ps.
Proof.
  eexists. split; [apply load_value | apply valid_pairs_stripped].
Qed.

(** X3: the row numbers in the printed messages are exactly the 1-based
    positions, in the file, of the malformed rows after the header: a
    message names row [n] if and only if the [n]-th row is a malformed data
    row. *)
Theorem loader_warnings_name_malformed_rows
    (has_header : bool) (rows : list row) (n : nat) :
  (exists w, In w (printed_by (loadReplacementPairs has_header rows))
             /\ msg_row w = Some n)
  <-> (exists r, (if has_header then 2 else 1) <= n
                 /\ nth_error rows (n - 1) = Some r
                 /\ malformed r = true).
Proof.
  rewrite load_printed. destruct has_header; [destruct rows as [|hdr rest]|].
  - split.
    + intros (w & [<-|[]] & H). discriminate.
    + intros (r & _ & H & _). destruct (n - 1); discriminate.
  - split.
    + intros (w & [<-|Hin] & Hrow); [discriminate|].
      destruct (proj1 (warnings_from_rows true rest 0 n)) as (k & r & Hk & Hbad & Hn);
        [eauto|].
      unfold row_num_for_warning in Hn. cbn [Nat.add] in Hn.
      exists r. repeat split; auto; [lia|].
      replace (n - 1) with (S k) by lia. exact Hk.
    + intros (r & Hn & Hk & Hbad).
      destruct (n - 1) as [|k] eqn:E; [lia|]. cbn [nth_error] in Hk.
      destruct (proj2 (warnings_from_rows true rest 0 n)) as (w & Hin & Hrow).
      { exists k, r. repeat split; auto. unfold row_num_for_warning. simpl. lia. }
      exists w. split; auto. now right.
  - split.
    + intros (w & Hin & Hrow).
      destruct (proj1 (warnings_from_rows false rows 0 n)) as (k & r & Hk & Hbad & Hn);
        [eauto|].
      unfold row_num_for_warning in Hn. cbn [Nat.add] in Hn.
      exists r. repeat split; auto; [lia|].
      replace (n - 1) with k by lia. exact Hk.
    + intros (r & Hn & Hk & Hbad).
      apply (warnings_from_rows false rows 0 n).
      exists (n - 1), r. repeat split; auto.
      unfold row_num_for_warning. simpl. lia.
Qed.

(** X4: a row with two fields or more is rejected exactly when its first
    field is made of whitespace only (the empty field included); it then
    gives the warning for its row and no pair, and otherwise its pair and
    no message. *)
Theorem loader_rejects_whitespace_find (f t : str) (extra : row) (out : list Msg) :
  loadReplacementPairs false [f :: t :: extra] out
  = if forallb isspace f
    then (Ok [], out ++ [EmptyFind 1])
    else (Ok [(strip f, strip t)], out).
Proof.
  rewrite load_no_header_run.
  cbn [valid_pairs flat_map row_pairs warnings_from row_warnings].
  destruct (forallb isspace f) eqn:E.
  - apply strip_empty_iff in E. rewrite E. reflexivity.
  - destruct (is_empty (strip f)) eqn:E'.
    + apply strip_empty_iff in E'. congruence.
    + cbn [app]. now rewrite app_nil_r.
Qed.

(** X5: the loader keeps the order and the duplicates of the rows: its
    result is the well-formed rows, in order, each turned into the pair of
    its first two fields stripped. *)
Theorem loader_is_filter_then_map (rows : list row) :
  value_of (loadReplacementPairs false rows)
  = Ok (map (fun r => (strip (nth 0 r []), strip (nth 1 r [])))
            (filter (fun r => negb (malformed r)) rows)).
Proof. rewrite load_value. f_equal. apply valid_pairs_filter_map. Qed.

(** X6: loading is idempotent: the pairs the loader returned, written back
    as rows of two fields and loaded again, give the same pairs and no
    message. *)
Theorem loader_reload_round_trip (has_header : bool) (rows : list row) :
  exists ps,
    value_of (loadReplacementPairs has_header rows) = Ok ps
    /\ loadReplacementPairs false (map (fun p : pair => [fst p; snd p]) ps) []
       = (Ok ps, []).
Proof.
  eexists. split; [apply load_value|].
  apply reload_stripped, valid_pairs_stripped.
Qed.

(** X7: with a header the data rows are numbered from 2: the messages for
    the rows after the header name the row numbers the same rows get
    without header, plus one. *)
Theorem loader_header_shifts_row_numbers (hdr : row) (rest : list row) :
  map msg_row (printed_by (loadReplacementPairs true (hdr :: rest)))
  = None :: map (option_map S)
              (map msg_row (printed_by (loadReplacementPairs false rest))).
Proof.
  rewrite !load_printed. cbn [map msg_row]. f_equal.
  apply warnings_from_header_shift.
Qed.

(** ** More on [str.replace] *)

Lemma starts_with_length (old s : str) :
  starts_with old s = true -> length old <= length s.
Proof.
  revert s. induction old as [|a old IH]; intros [|b s] H; simpl in *;
    try lia; try discriminate.
  apply andb_true_iff in H as [_ H]. apply IH in H. lia.
Qed.

Lemma starts_with_split (old s : str) :
  starts_with old s = true -> s = old ++ skipn (length old) s.
Proof.
  revert s. induction old as [|a old IH]; intros [|b s] H; simpl in *;
    auto; try discriminate.
  apply andb_true_iff in H as [Hab H]. apply N.eqb_eq in Hab as ->.
  f_equal. now apply IH.
Qed.

Lemma interleave_length (new s : str) :
  length (interleave new s) = length s + (length s + 1) * length new.
Proof.
  induction s as [|c s IH]; simpl; [lia|].
  rewrite length_app. simpl. rewrite IH. lia.
Qed.

Lemma replace_scan_length_le (old new : str) :
  length new <= length old ->
  forall s k,
    length (replace_scan old new k s) + Nat.min k (length s) <= length s.
Proof.
  intros Hlen. induction s as [|c s IH]; intros k; [simpl; lia|].
  destruct k as [|k].
  - cbn [replace_scan]. destruct (starts_with old (c :: s)) eqn:E.
    + apply starts_with_length in E. cbn [length] in *.
      rewrite length_app. specialize (IH (length old - 1)). lia.
    + cbn [length]. specialize (IH 0). lia.
  - cbn [replace_scan length]. specialize (IH k). lia.
Qed.

Lemma replace_scan_length_ge (old new : str) :
  1 <= length old -> length old <= length new ->
  forall s k,
    length s <= length (replace_scan old new k s) + Nat.min k (length s).
Proof.
  intros Hpos Hlen. induction s as [|c s IH]; intros k; [simpl; lia|].
  destruct k as [|k].
  - cbn [replace_scan]. destruct (starts_with old (c :: s)) eqn:E.
    + apply starts_with_length in E. cbn [length] in *.
      rewrite length_app. specialize (IH (length old - 1)). lia.
    + cbn [length]. specialize (IH 0). lia.
  - cbn [replace_scan length]. specialize (IH k). lia.
Qed.

Lemma str_replace_length_le (s old new : str) :
  length new <= length old -> length (str_replace s old new) <= length s.
Proof.
  intros H. destruct old as [|a old'].
  - destruct new; [|simpl in H; lia]. simpl. rewrite interleave_length. simpl. lia.
  - pose proof (replace_scan_length_le (a :: old') new H s 0) as L.
    unfold str_replace. simpl in L |- *. lia.
Qed.

Lemma str_replace_length_ge (s old new : str) :
  length old <= length new -> length s <= length (str_replace s old new).
Proof.
  intros H. destruct old as [|a old'].
  - simpl. rewrite interleave_length. lia.
  - assert (Hpos : 1 <= length (a :: old')) by (simpl; lia).
    pose proof (replace_scan_length_ge (a :: old') new Hpos H s 0) as L.
    unfold str_replace. simpl in L |- *. lia.
Qed.

Lemma replace_scan_no_new_char (x : char) (old new : str) :
  is_infix [x] new = false ->
  forall s k, is_infix [x] s = false ->
              is_infix [x] (replace_scan old new k s) = false.
Proof.
  intros Hnew. induction s as [|c s IH]; intros k Hs; auto.
  assert (Hc : (x =? c)%N = false /\ is_infix [x] s = false).
  { rewrite is_infix_char in *. cbn [existsb] in Hs.
    now apply orb_false_iff in Hs. }
  destruct Hc as [Hc Hs']. destruct k as [|k]; cbn [replace_scan]; auto.
  destruct (starts_with old (c :: s)).
  - rewrite is_infix_char_app, Hnew. now apply IH.
  - change (c :: replace_scan old new 0 s) with ([c] ++ replace_scan old new 0 s).
    rewrite is_infix_char_app, (IH 0 Hs'), orb_false_r.
    rewrite is_infix_char. cbn [existsb]. now rewrite Hc.
Qed.

Lemma interleave_no_new_char (x : char) (new s : str) :
  is_infix [x] new = false -> is_infix [x] s = false ->
  is_infix [x] (interleave new s) = false.
Proof.
  intros Hnew. induction s as [|c s IH]; intros Hs; auto.
  assert (Hc : (x =? c)%N = false /\ is_infix [x] s = false).
  { rewrite is_infix_char in *. cbn [existsb] in Hs.
    now apply orb_false_iff in Hs. }
  destruct Hc as [Hc Hs']. cbn [interleave].
  change (c :: interleave new s) with ([c] ++ interleave new s).
  rewrite !is_infix_char_app, Hnew, (IH Hs'), orb_false_r.
  rewrite is_infix_char. cbn [existsb]. now rewrite Hc.
Qed.

Lemma str_replace_no_new_char (x : char) (s old new : str) :
  is_infix [x] new = false -> is_infix [x] s = false ->
  is_infix [x] (str_replace s old new) = false.
Proof.
  intros Hnew Hs. destruct old as [|a old'].
  - now apply interleave_no_new_char.
  - now apply replace_scan_no_new_char.
Qed.

Lemma replace_scan_same (a : char) (old' : str) : forall n s,
  length s <= n -> replace_scan (a :: old') (a :: old') 0 s = s.
Proof.
  induction n as [|n IH]; intros s Hn.
  - destruct s; [reflexivity | simpl in Hn; lia].
  - destruct s as [|c s]; auto.
    destruct (starts_with (a :: old') (c :: s)) eqn:E.
    + pose proof (starts_with_length _ _ E) as Hlen.
      rewrite (starts_with_split _ _ E) at 1.
      rewrite replace_scan_hit, IH.
      * symmetry. exact (starts_with_split _ _ E).
      * rewrite length_skipn. simpl in Hn, Hlen |- *. lia.
    + rewrite replace_scan_miss by exact E. rewrite IH; auto.
      simpl in Hn. lia.
Qed.

Lemma interleave_nil (s : str) : interleave [] s = s.
Proof. induction s as [|c s IH]; simpl; congruence. Qed.

Lemma str_replace_same (s old : str) : str_replace s old old = s.
Proof.
  destruct old as [|a old'].
  - apply interleave_nil.
  - apply replace_scan_same with (n := length s). lia.
Qed.

(** ** More on the transformer *)

Lemma replace_pass_silent content f r out :
  length (str_replace content f r) = length content ->
  replace_pass content (f, r) out = (Ok (str_replace content f r), out).
Proof.
  intros H. unfold replace_pass. rewrite H, Nat.eqb_refl. reflexivity.
Qed.

Lemma replace_loop_same_length replacements : forall content out,
  Forall (fun p : pair => length (fst p) = length (snd p)) replacements ->
  replace_loop content replacements out
  = (Ok (chained_replace content replacements), out).
Proof.
  induction replacements as [|[f r] rest IH]; intros content out H; auto.
  inversion H as [|? ? Hp Hrest]; subst. cbn [fst snd] in Hp.
  cbn [replace_loop]. erewrite bind_ok.
  2:{ apply replace_pass_silent.
      pose proof (str_replace_length_le content f r).
      pose proof (str_replace_length_ge content f r). lia. }
  now apply IH.
Qed.

Lemma replace_loop_absent replacements : forall content out,
  (forall p, In p replacements -> is_infix (fst p) content = false) ->
  replace_loop content replacements out = (Ok content, out).
Proof.
  induction replacements as [|[f r] rest IH]; intros content out H; auto.
  assert (Hf : str_replace content f r = content).
  { apply str_replace_absent. apply (H (f, r)). now left. }
  cbn [replace_loop]. erewrite bind_ok.
  2:{ apply replace_pass_silent. now rewrite Hf. }
  rewrite Hf. apply IH. intros q Hq. apply H. now right.
Qed.

Lemma chained_replace_length_le replacements : forall content,
  Forall (fun p : pair => length (snd p) <= length (fst p)) replacements ->
  length (chained_replace content replacements) <= length content.
Proof.
  induction replacements as [|[f r] rest IH]; intros content H; auto.
  inversion H as [|? ? Hp Hrest]; subst. cbn [fst snd] in Hp.
  unfold chained_replace in *. cbn [fold_left fst snd].
  etransitivity; [apply IH; exact Hrest|].
  now apply str_replace_length_le.
Qed.

Lemma chained_replace_length_ge replacements : forall content,
  Forall (fun p : pair => length (fst p) <= length (snd p)) replacements ->
  length content <= length (chained_replace content replacements).
Proof.
  induction replacements as [|[f r] rest IH]; intros content H; auto.
  inversion H as [|? ? Hp Hrest]; subst. cbn [fst snd] in Hp.
  unfold chained_replace in *. cbn [fold_left fst snd].
  etransitivity; [|apply IH; exact Hrest].
  now apply str_replace_length_ge.
Qed.

Lemma chained_replace_no_new_char (x : char) replacements : forall content,
  is_infix [x] content = false ->
  (forall p, In p replacements -> is_infix [x] (snd p) = false) ->
  is_infix [x] (chained_replace content replacements) = false.
Proof.
  induction replacements as [|[f r] rest IH]; intros content Hc H; auto.
  unfold chained_replace in *. cbn [fold_left fst snd].
  apply IH.
  - apply str_replace_no_new_char; auto. apply (H (f, r)). now left.
  - intros q Hq. apply H. now right.
Qed.

Lemma chained_replace_same replacements : forall content,
  Forall (fun p : pair => fst p = snd p) replacements ->
  chained_replace content replacements = content.
Proof.
  induction replacements as [|[f r] rest IH]; intros content H; auto.
  inversion H as [|? ? Hp Hrest]; subst. cbn [fst snd] in Hp. subst r.
  unfold chained_replace in *. cbn [fold_left fst snd].
  rewrite str_replace_same. now apply IH.
Qed.

(** X8: when no replace text is longer than its find text, the text the
    transformer returns is not longer than the text it was given. *)
Theorem transformer_never_lengthens
    (content : str) (replacements : list pair) (out : list Msg) :
  Forall (fun p : pair => length (snd p) <= length (fst p)) replacements ->
  exists result,
    fst (applyReplacements content replacements out) = Ok result
    /\ length result <= length content.
Proof.
  intros H. eexists. split; [apply applyReplacements_value|].
  now apply chained_replace_length_le.
Qed.

Lemma transformer_never_lengthens_witness :
  exists result,
    fst (applyReplacements (py "colour, colour") [(py "ou", py "o"); (py ", ", py "")] [])
    = Ok result
    /\ length result <= length (py "colour, colour").
Proof.
  apply transformer_never_lengthens.
  repeat constructor.
Defined.

(** X9: when no replace text is shorter than its find text, the text the
    transformer returns is not shorter than the text it was given. *)
Theorem transformer_never_shortens
    (content : str) (replacements : list pair) (out : list Msg) :
  Forall (fun p : pair => length (fst p) <= length (snd p)) replacements ->
  exists result,
    fst (applyReplacements content replacements out) = Ok result
    /\ length content <= length result.
Proof.
  intros H. eexists. split; [apply applyReplacements_value|].
  now apply chained_replace_length_ge.
Qed.

Lemma transformer_never_shortens_witness :
  exists result,
    fst (applyReplacements (py "a-b") [(py "-", py " - "); (py "b", py "c")] [])
    = Ok result
    /\ length (py "a-b") <= length result.
Proof.
  apply transformer_never_shortens.
  repeat constructor.
Defined.

(** X10: a pair is reported as replaced only when its pass changes the
    length of the text: when every replace text is as long as its find
    text, the run prints the count of pairs and nothing else, whether or
    not the text changed. *)
Theorem same_length_pairs_are_not_reported
    (content : str) (p : pair) (rest : list pair) (out : list Msg) :
  Forall (fun q : pair => length (fst q) = length (snd q)) (p :: rest) ->
  applyReplacements content (p :: rest) out
  = (Ok (chained_replace content (p :: rest)),
     out ++ [Performing (length (p :: rest))]).
Proof.
  intros H. unfold applyReplacements. rewrite bind_print.
  now apply replace_loop_same_length.
Qed.

Lemma same_length_pairs_witness :
  applyReplacements (py "cat") (((py "c", py "b")) :: [(py "t", py "d")]) []
  = (Ok (chained_replace (py "cat") ((py "c", py "b") :: [(py "t", py "d")])),
     [] ++ [Performing (length ((py "c", py "b") :: [(py "t", py "d")]))]).
Proof.
  apply same_length_pairs_are_not_reported.
  repeat constructor.
Defined.

(** X11: when no find text of the list occurs in the text, the run returns
    the text as it is and reports no pair as replaced. *)
Theorem absent_find_texts_change_nothing
    (content : str) (p : pair) (rest : list pair) (out : list Msg) :
  (forall q, In q (p :: rest) -> is_infix (fst q) content = false) ->
  applyReplacements content (p :: rest) out
  = (Ok content, out ++ [Performing (length (p :: rest))]).
Proof.
  intros H. unfold applyReplacements. rewrite bind_print.
  now apply replace_loop_absent.
Qed.

Lemma absent_find_texts_witness :
  applyReplacements (py "hello") ((py "world", py "x") :: [(py "lol", py "y")]) []
  = (Ok (py "hello"),
     [] ++ [Performing (length ((py "world", py "x") :: [(py "lol", py "y")]))]).
Proof.
  apply absent_find_texts_change_nothing.
  intros q [<-|[<-|[]]]; reflexivity.
Defined.

(** X12: the transformer brings in no character of its own: a character
    that is neither in the text nor in a replace text of the list is not in
    the result. *)
Theorem transformer_adds_no_foreign_character
    (x : char) (content : str) (replacements : list pair) (out : list Msg) :
  is_infix [x] content = false ->
  (forall p, In p replacements -> is_infix [x] (snd p) = false) ->
  exists result,
    fst (applyReplacements content replacements out) = Ok result
    /\ is_infix [x] result = false.
Proof.
  intros Hc H. eexists. split; [apply applyReplacements_value|].
  now apply chained_replace_no_new_char.
Qed.

Lemma transformer_adds_no_foreign_character_witness :
  exists result,
    fst (applyReplacements (py "abcabc") [(py "bc", py "dd"); (py "ad", py "")] [])
    = Ok result
    /\ is_infix [122%N] result = false.
Proof.
  apply transformer_adds_no_foreign_character.
  - reflexivity.
  - intros p [<-|[<-|[]]]; reflexivity.
Defined.

(** X13: pairs whose replace text is their find text change nothing: the
    transformer returns the text it was given. *)
Theorem identical_pairs_change_nothing
    (content : str) (replacements : list pair) (out : list Msg) :
  Forall (fun p : pair => fst p = snd p) replacements ->
  fst (applyReplacements content replacements out) = Ok content.
Proof.
  intros H. rewrite applyReplacements_value. f_equal.
  now apply chained_replace_same.
Qed.

Lemma identical_pairs_witness :
  fst (applyReplacements (py "aaa") [(py "aa", py "aa"); (py "a", py "a")] [])
  = Ok (py "aaa").
Proof.
  apply identical_pairs_change_nothing.
  repeat constructor.
Defined.

(** X14: when every find text is a single character and none of them
    occurs in a replace text of the list, no find text is left in the
    result. *)
Theorem single_char_finds_are_gone
    (content : str) (replacements : list pair) (out : list Msg) :
  single_char_finds replacements = true ->
  no_find_in_replace replacements = true ->
  exists result,
    fst (applyReplacements content replacements out) = Ok result
    /\ forall p, In p replacements -> is_infix (fst p) result = false.
Proof.
  intros Hone Hdisj. eexists. split; [apply applyReplacements_value|].
  intros p Hp.
  unfold no_find_in_replace in Hdisj. rewrite forallb_forall in Hdisj.
  assert (Hnew : forall q, In q replacements -> is_infix (fst p) (snd q) = false).
  { intros q Hq. specialize (Hdisj p Hp). rewrite forallb_forall in Hdisj.
    apply negb_true_iff. now apply Hdisj. }
  pose proof Hone as Hlen.
  unfold single_char_finds in Hlen. rewrite forallb_forall in Hlen.
  specialize (Hlen p Hp).
  destruct p as [[|x [|y f]] r]; try discriminate.
  cbn [fst] in *.
  apply chained_replace_char_absent; auto.
  left. now exists r.
Qed.

Lemma single_char_finds_are_gone_witness :
  exists result,
    fst (applyReplacements (py "a;b;;c") [(py ";", py ", "); (py "b", py "")] [])
    = Ok result
    /\ forall p, In p [(py ";", py ", "); (py "b", py "")] ->
                 is_infix (fst p) result = false.
Proof.
  apply single_char_finds_are_gone; reflexivity.
Defined.

(** ** The loader followed by the transformer: helper facts *)

Lemma load_run_ex has_header rows out :
  exists msgs,
    loadReplacementPairs has_header rows out
    = (Ok (valid_pairs (if has_header then tl rows else rows)), out ++ msgs).
Proof.
  destruct has_header; [destruct rows as [|hdr rest]|].
  - rewrite load_header_empty_run. eauto.
  - rewrite load_header_run. eauto.
  - rewrite load_no_header_run. eauto.
Qed.

Lemma chained_replace_nil replacements :
  Forall (fun p : pair => is_empty (fst p) = false) replacements ->
  chained_replace [] replacements = [].
Proof.
  induction 1 as [|[f r] rest Hp _ IH]; auto.
  unfold chained_replace in *. cbn [fold_left fst snd] in *.
  destruct f; [discriminate|]. exact IH.
Qed.

Lemma all_malformed_no_pairs (rows : list row) :
  Forall (fun r => malformed r = true) rows -> valid_pairs rows = [].
Proof.
  induction 1 as [|r rest Hr _ IH]; auto.
  unfold valid_pairs in *. cbn [flat_map].
  now rewrite (malformed_no_pair _ Hr), IH.
Qed.

(** ** The path functions *)

Lemma firstn_length_app A (l r : list A) : firstn (length l) (l ++ r) = l.
Proof. induction l as [|a l IH]; simpl; [now destruct r | now rewrite IH]. Qed.

Lemma skipn_length_app A (l r : list A) : skipn (length l) (l ++ r) = r.
Proof. induction l as [|a l IH]; simpl; auto. Qed.

Lemma rfind_from_absent (c : char) (t : str) : forall i last,
  is_infix [c] t = false -> OsPath.rfind_from c t i last = last.
Proof.
  induction t as [|d t IH]; intros i last H; auto.
  rewrite is_infix_char in H. cbn [existsb] in H.
  apply orb_false_iff in H as [Hd Ht]. rewrite <- is_infix_char in Ht.
  cbn [OsPath.rfind_from]. rewrite N.eqb_sym, Hd. now apply IH.
Qed.

Lemma rfind_from_last (c : char) (a t : str) : forall i last,
  is_infix [c] t = false ->
  OsPath.rfind_from c (a ++ c :: t) i last = (i + Z.of_nat (length a))%Z.
Proof.
  induction a as [|d a IH]; intros i last H.
  - cbn [app OsPath.rfind_from length]. rewrite N.eqb_refl.
    rewrite rfind_from_absent by exact H. simpl. lia.
  - cbn [app OsPath.rfind_from]. rewrite IH by exact H.
    cbn [length]. lia.
Qed.

Lemma last_occurrence (c : char) (p : str) :
  is_infix [c] p = false
  \/ exists a t, p = a ++ c :: t /\ is_infix [c] t = false.
Proof.
  induction p as [|d p IH]; [now left|].
  destruct IH as [H|(a & t & -> & H)].
  - destruct (c =? d)%N eqn:E.
    + apply N.eqb_eq in E as <-. right. exists [], p. auto.
    + left. rewrite is_infix_char in *. cbn [existsb]. now rewrite E.
  - right. exists (d :: a), t. auto.
Qed.

Lemma lstrip_char_hd (c : char) (s : str) :
  match OsPath.lstrip_char c s with
  | [] => True
  | d :: _ => (d =? c)%N = false
  end.
Proof.
  induction s as [|d s IH]; simpl; auto.
  destruct (d =? c)%N eqn:E; auto.
Qed.

Lemma lstrip_char_nil (c : char) (s : str) :
  OsPath.lstrip_char c s = [] -> forallb (fun d => (d =? c)%N) s = true.
Proof.
  induction s as [|d s IH]; simpl; auto.
  destruct (d =? c)%N; [exact IH | discriminate].
Qed.

Lemma rstrip_char_snoc (c : char) (s : str) :
  OsPath.rstrip_char c (s ++ [c]) = OsPath.rstrip_char c s.
Proof.
  unfold OsPath.rstrip_char. rewrite rev_app_distr. simpl.
  now rewrite N.eqb_refl.
Qed.

Lemma rstrip_char_ends (c : char) (s : str) :
  OsPath.ends_with c (OsPath.rstrip_char c s) = false.
Proof.
  unfold OsPath.ends_with, OsPath.rstrip_char. rewrite rev_involutive.
  pose proof (lstrip_char_hd c (rev s)) as H.
  destruct (OsPath.lstrip_char c (rev s)); auto.
Qed.

Lemma rstrip_char_fixed (c : char) (s : str) :
  OsPath.ends_with c s = false -> OsPath.rstrip_char c s = s.
Proof.
  unfold OsPath.ends_with, OsPath.rstrip_char. intros H.
  destruct (rev s) as [|d r] eqn:E.
  - simpl. rewrite <- (rev_involutive s), E. reflexivity.
  - simpl. rewrite H. rewrite <- E. apply rev_involutive.
Qed.

Lemma rstrip_char_nonempty (s : str) :
  OsPath.all_sep s = false ->
  is_empty (OsPath.rstrip_char OsPath.sep s) = false.
Proof.
  unfold OsPath.all_sep, OsPath.rstrip_char. intros H.
  destruct (OsPath.lstrip_char OsPath.sep (rev s)) as [|d r] eqn:E.
  - apply lstrip_char_nil in E. rewrite forallb_rev in E.
    unfold char in *. rewrite H in E. discriminate.
  - simpl. now destruct (rev r).
Qed.

Lemma not_ends_not_all_sep (s : str) :
  is_empty s = false -> OsPath.ends_with OsPath.sep s = false ->
  OsPath.all_sep s = false.
Proof.
  unfold OsPath.ends_with, OsPath.all_sep. intros Hne H.
  rewrite <- forallb_rev. unfold str, char in *.
  destruct (rev s) as [|d r] eqn:E.
  - rewrite <- (rev_involutive s), E in Hne. discriminate.
  - cbn [forallb]. now rewrite H.
Qed.

Lemma all_sep_snoc (a : str) :
  OsPath.all_sep (a ++ [OsPath.sep]) = OsPath.all_sep a.
Proof.
  unfold OsPath.all_sep. rewrite forallb_app. simpl. apply andb_true_r.
Qed.

Lemma ends_with_snoc (c : char) (a : str) : OsPath.ends_with c (a ++ [c]) = true.
Proof.
  unfold OsPath.ends_with. rewrite rev_app_distr. simpl. apply N.eqb_refl.
Qed.

(** [split] on a path without separator, and on a path cut at its last
    separator. *)
Lemma split_no_sep (p : str) :
  is_infix [OsPath.sep] p = false -> OsPath.split p = ([], p).
Proof.
  intros H. unfold OsPath.split, OsPath.rfind.
  rewrite rfind_from_absent by exact H. reflexivity.
Qed.

Lemma split_at_last_sep (a t : str) :
  is_infix [OsPath.sep] t = false ->
  OsPath.split (a ++ OsPath.sep :: t)
  = (if OsPath.all_sep a then a ++ [OsPath.sep]
     else OsPath.rstrip_char OsPath.sep a, t).
Proof.
  intros H. unfold OsPath.split, OsPath.rfind.
  rewrite rfind_from_last by exact H.
  unfold OsPath.slice_to, OsPath.slice_from.
  replace (Z.to_nat (0 + Z.of_nat (length a) + 1)) with (length (a ++ [OsPath.sep]))
    by (rewrite length_app; simpl; lia).
  replace (a ++ OsPath.sep :: t) with ((a ++ [OsPath.sep]) ++ t)
    by (now rewrite <- app_assoc).
  rewrite firstn_length_app, skipn_length_app.
  rewrite all_sep_snoc, rstrip_char_snoc.
  assert (Hne : is_empty (a ++ [OsPath.sep]) = false) by (now destruct a).
  rewrite Hne. simpl. now destruct (OsPath.all_sep a).
Qed.

Lemma splitext_app (p : str) :
  fst (OsPath.splitext p) ++ snd (OsPath.splitext p) = p.
Proof.
  unfold OsPath.splitext.
  destruct (_ <? _)%Z; [|apply app_nil_r].
  destruct (existsb _ _); [|apply app_nil_r].
  apply firstn_skipn.
Qed.

Lemma join_file (dir file : str) :
  is_empty dir = false ->
  is_infix [OsPath.sep] file = false ->
  OsPath.join dir file
  = if OsPath.ends_with OsPath.sep dir then dir ++ file
    else dir ++ OsPath.sep :: file.
Proof.
  intros Hd Hf. unfold OsPath.join.
  assert (Hs : starts_with [OsPath.sep] file = false).
  { destruct file as [|d f]; auto.
    cbn [is_infix] in Hf. now apply orb_false_iff in Hf. }
  rewrite Hs, Hd. reflexivity.
Qed.

(** The directory [split] returns, or "." when it is empty, joined with a
    file name without separator, splits back into the two. *)
Lemma split_join_dir (p file : str) :
  is_infix [OsPath.sep] file = false ->
  let dir := if is_empty (fst (OsPath.split p)) then py "."
             else fst (OsPath.split p) in
  OsPath.split (OsPath.join dir file) = (dir, file).
Proof.
  intros Hf.
  destruct (last_occurrence OsPath.sep p) as [H|(a & t & -> & H)].
  - rewrite split_no_sep by exact H. cbn [fst is_empty].
    cbv zeta. rewrite join_file by (auto; reflexivity).
    change (OsPath.ends_with OsPath.sep (py ".")) with false. cbv iota.
    rewrite split_at_last_sep by exact Hf. reflexivity.
  - rewrite split_at_last_sep by exact H. cbn [fst]. cbv zeta.
    destruct (OsPath.all_sep a) eqn:E.
    + assert (Hne : is_empty (a ++ [OsPath.sep]) = false) by (now destruct a).
      rewrite Hne. rewrite join_file by auto.
      rewrite ends_with_snoc, <- app_assoc. cbn [app].
      rewrite split_at_last_sep by exact Hf. now rewrite E.
    + pose proof (rstrip_char_nonempty a E) as Hne.
      pose proof (rstrip_char_ends OsPath.sep a) as Hend.
      rewrite Hne. rewrite join_file by auto.
      rewrite Hend.
      rewrite split_at_last_sep by exact Hf.
      rewrite (not_ends_not_all_sep _ Hne Hend).
      now rewrite (rstrip_char_fixed _ _ Hend).
Qed.

Lemma split_tail_no_sep (p : str) :
  is_infix [OsPath.sep] (snd (OsPath.split p)) = false.
Proof.
  destruct (last_occurrence OsPath.sep p) as [H|(a & t & -> & H)].
  - now rewrite split_no_sep by exact H.
  - now rewrite split_at_last_sep by exact H.
Qed.

Lemma suggested_split (p : str) :
  let dir := fst (OsPath.split p) in
  let file := snd (OsPath.split p) in
  let name := fst (OsPath.splitext file) in
  let ext := snd (OsPath.splitext file) in
  OsPath.split (suggested_output_filename p)
  = (if is_empty dir then py "." else dir, name ++ py "_modified" ++ ext).
Proof.
  cbv zeta. unfold suggested_output_filename.
  destruct (OsPath.split p) as [dir file] eqn:Ep. cbn [fst snd].
  destruct (OsPath.splitext file) as [name ext] eqn:Ef. cbn [fst snd].
  pose proof (split_join_dir p (name ++ py "_modified" ++ ext)) as H.
  rewrite Ep in H. cbn [fst] in H. apply H.
  pose proof (split_tail_no_sep p) as Ht. rewrite Ep in Ht. cbn [snd] in Ht.
  pose proof (splitext_app file) as Ha. rewrite Ef in Ha. cbn [fst snd] in Ha.
  rewrite <- Ha, is_infix_char_app in Ht. apply orb_false_iff in Ht as [Hn He].
  now rewrite !is_infix_char_app, Hn, He.
Qed.

Lemma rfind_from_lower (c : char) (p : str) : forall i last,
  (0 <= i)%Z -> (-1 <= last)%Z -> (-1 <= OsPath.rfind_from c p i last)%Z.
Proof.
  induction p as [|d p IH]; intros i last Hi Hl; auto.
  cbn [OsPath.rfind_from]. apply IH; [lia|].
  destruct (d =? c)%N; lia.
Qed.

Lemma splitext_ext_shape (f : str) :
  snd (OsPath.splitext f) = []
  \/ exists t, snd (OsPath.splitext f) = OsPath.extsep :: t
               /\ is_infix [OsPath.extsep] t = false.
Proof.
  unfold OsPath.splitext.
  destruct (_ <? _)%Z eqn:E; [|now left].
  destruct (existsb _ _); [|now left].
  right. cbn [snd]. apply Z.ltb_lt in E.
  destruct (last_occurrence OsPath.extsep f) as [H|(a & t & -> & H)].
  - exfalso. unfold OsPath.rfind in E.
    rewrite (@rfind_from_absent OsPath.extsep f 0%Z (-1)%Z H) in E.
    pose proof (@rfind_from_lower OsPath.sep f 0 (-1)). lia.
  - exists t. split; auto.
    unfold OsPath.slice_from, OsPath.rfind.
    rewrite rfind_from_last by exact H.
    replace (Z.to_nat (0 + Z.of_nat (length a))) with (length a) by lia.
    apply skipn_length_app.
Qed.

Lemma suggested_tail_no_sep (p : str) :
  is_infix [OsPath.sep]
    (fst (OsPath.splitext (snd (OsPath.split p))) ++ py "_modified"
     ++ snd (OsPath.splitext (snd (OsPath.split p)))) = false.
Proof.
  pose proof (split_tail_no_sep p) as Ht.
  rewrite <- (splitext_app (snd (OsPath.split p))), is_infix_char_app in Ht.
  apply orb_false_iff in Ht as [Hn He].
  now rewrite !is_infix_char_app, Hn, He.
Qed.

(** X18: the suggested output path is never the input path: by default
    the function does not write over its input. *)
Theorem suggested_output_is_not_the_input (p : str) :
  suggested_output_filename p <> p.
Proof.
  intros Heq. pose proof (suggested_split p) as H. cbv zeta in H.
  rewrite Heq in H. apply (f_equal snd) in H. cbn [snd] in H.
  rewrite <- (splitext_app (snd (OsPath.split p))) in H at 1.
  apply (f_equal (@length char)) in H.
  rewrite !length_app in H. simpl in H. lia.
Qed.

(** X19: the suggested output path is in the directory of the input path,
    or in "." when the input path has none, and its file name is the input
    file name with "_modified" put between the name and the extension:
    [os.path.split] of the suggestion gives back that directory and that
    file name. *)
Theorem suggested_output_directory_and_name (p : str) :
  let dir := fst (OsPath.split p) in
  let file := snd (OsPath.split p) in
  let name := fst (OsPath.splitext file) in
  let ext := snd (OsPath.splitext file) in
  name ++ ext = file
  /\ OsPath.split (suggested_output_filename p)
     = (if is_empty dir then py "." else dir, name ++ py "_modified" ++ ext).
Proof.
  cbv zeta. split; [apply splitext_app | apply suggested_split].
Qed.

(** X20: the suggested output path keeps the extension of the input path:
    it ends with "_modified" followed by the extension, the extension is
    the end of the input path, and it is empty or a dot followed by
    characters that are not dots. *)
Theorem suggested_output_keeps_extension (p : str) :
  let ext := snd (OsPath.splitext (snd (OsPath.split p))) in
  (exists stem, suggested_output_filename p = stem ++ py "_modified" ++ ext)
  /\ (exists pre, p = pre ++ ext)
  /\ (ext = [] \/ exists t, ext = OsPath.extsep :: t
                            /\ is_infix [OsPath.extsep] t = false).
Proof.
  cbv zeta. split; [|split].
  - pose proof (suggested_tail_no_sep p) as Hs.
    unfold suggested_output_filename.
    destruct (OsPath.split p) as [dir file]. cbn [fst snd] in *.
    destruct (OsPath.splitext file) as [name ext]. cbn [fst snd] in *.
    rewrite join_file; [|now destruct dir|exact Hs].
    destruct (OsPath.ends_with _ _).
    + eexists. rewrite app_assoc. reflexivity.
    + eexists. rewrite app_comm_cons, app_assoc. reflexivity.
  - exists (OsPath.slice_to p (OsPath.rfind p OsPath.sep + 1)
            ++ fst (OsPath.splitext (snd (OsPath.split p)))).
    rewrite <- app_assoc, splitext_app.
    unfold OsPath.split, OsPath.slice_to, OsPath.slice_from. cbn [snd].
    symmetry. apply firstn_skipn.
  - apply splitext_ext_shape.
Qed.

(** X21: the output path is the line the user typed, stripped, unless that
    line is blank; then it is the suggested path.  It is never empty. *)
Theorem output_path_is_answer_or_suggestion (answer p : str) :
  output_text_file_path answer (suggested_output_filename p)
  = (if forallb isspace answer then suggested_output_filename p else strip answer)
  /\ is_empty (output_text_file_path answer (suggested_output_filename p)) = false.
Proof.
  assert (Hs : is_empty (suggested_output_filename p) = false).
  { destruct (suggested_output_filename p) eqn:E; auto.
    pose proof (suggested_split p) as H. cbv zeta in H. rewrite E in H.
    apply (f_equal snd) in H. cbn in H.
    apply (f_equal (@length char)) in H. rewrite !length_app in H.
    simpl in H. lia. }
  unfold output_text_file_path.
  destruct (is_empty (strip answer)) eqn:E.
  - pose proof (proj1 (strip_empty_iff answer) E) as ->. auto.
  - destruct (forallb isspace answer) eqn:E'; auto.
    apply strip_empty_iff in E'. congruence.
Qed.

(** ** Occurrences and concatenation *)

Lemma starts_with_app_l (g x y : str) :
  starts_with g x = true -> starts_with g (x ++ y) = true.
Proof.
  revert x. induction g as [|a g IH]; intros [|c x] H; simpl in *;
    auto; try discriminate.
  apply andb_true_iff in H as [-> H]. simpl. now apply IH.
Qed.

(** A text that begins [x ++ w] begins [x], or is [x] followed by a text
    that begins [w]. *)
Lemma starts_with_app_inv (x : str) : forall g w,
  starts_with g (x ++ w) = true ->
  starts_with g x = true \/ exists g', g = x ++ g' /\ starts_with g' w = true.
Proof.
  induction x as [|c x IH]; intros g w H.
  - right. exists g. auto.
  - destruct g as [|a g]; [now left|].
    cbn [app starts_with] in H. apply andb_true_iff in H as [Hac H].
    apply N.eqb_eq in Hac as ->.
    destruct (IH g w H) as [Hx|(g' & -> & Hg')].
    + left. cbn [starts_with]. now rewrite N.eqb_refl.
    + right. exists g'. auto.
Qed.

Lemma compat_of_starts_with (g r y : str) :
  starts_with g (r ++ y) = true -> compat g r = true.
Proof.
  intros H. unfold compat.
  destruct (starts_with_app_inv r g y H) as [->|(g' & -> & _)]; auto.
  rewrite starts_with_self. apply orb_true_r.
Qed.

Lemma compat_sym (a b : str) : compat a b = compat b a.
Proof. apply orb_comm. Qed.

Lemma is_infix_app_l (g x y : str) :
  is_infix g x = true -> is_infix g (x ++ y) = true.
Proof.
  induction x as [|c x IH]; intros H.
  - destruct g; [apply is_infix_empty | discriminate].
  - cbn [is_infix] in H. apply orb_true_iff in H as [H|H].
    + pose proof (starts_with_app_l g (c :: x) y H) as H'. cbn [app] in H'.
      cbn [app is_infix]. now rewrite H'.
    + cbn [app is_infix]. rewrite (IH H). apply orb_true_r.
Qed.

Lemma is_infix_app_r (g x y : str) :
  is_infix g y = true -> is_infix g (x ++ y) = true.
Proof.
  intros H. induction x as [|c x IH]; auto.
  cbn [app is_infix]. rewrite IH. apply orb_true_r.
Qed.

Lemma is_infix_skipn (g s : str) : forall k,
  is_infix g (skipn k s) = true -> is_infix g s = true.
Proof.
  intros k H. rewrite <- (firstn_skipn k s). now apply is_infix_app_r.
Qed.

(** ** A find text that overlaps no replace text *)

Lemma clash_in_false (g r y : str) :
  clash_in g r = false -> is_infix g (r ++ y) = true -> is_infix g y = true.
Proof.
  induction r as [|c r IH]; intros Hc H; auto.
  cbn [clash_in] in Hc. apply orb_false_iff in Hc as [Hc Hr].
  cbn [app is_infix] in H. apply orb_true_iff in H as [H|H]; auto.
  apply (compat_of_starts_with g (c :: r) y) in H.
  rewrite compat_sym in H. congruence.
Qed.

Lemma suffix_clash_app (x g' r : str) :
  g' <> [] -> compat g' r = true -> suffix_clash (x ++ g') r = true.
Proof.
  intros Hne Hc. induction x as [|c x IH].
  - destruct g' as [|a g']; [congruence|]. cbn [app suffix_clash].
    now rewrite Hc.
  - cbn [app suffix_clash]. rewrite IH. apply orb_true_r.
Qed.

(** An occurrence of [g] in [x ++ r ++ y], for [g] that does not overlap
    [r], is an occurrence in [x] or in [y]. *)
Lemma no_overlap_occurrence (g r y x : str) :
  overlaps g r = false ->
  is_infix g (x ++ r ++ y) = true ->
  is_infix g x = true \/ is_infix g y = true.
Proof.
  intros Ho. apply orb_false_iff in Ho as [Hin Htail].
  induction x as [|c x IH]; intros H.
  - right. now apply clash_in_false with (r := r).
  - cbn [app is_infix] in H. apply orb_true_iff in H as [H|H].
    + change (c :: x ++ r ++ y) with ((c :: x) ++ r ++ y) in H.
      destruct (starts_with_app_inv (c :: x) g (r ++ y) H) as [Hx|(g' & -> & Hg')].
      * left. cbn [is_infix]. now rewrite Hx.
      * destruct g' as [|a g'].
        -- left. rewrite app_nil_r. cbn [is_infix].
           pose proof (starts_with_self (c :: x) []) as E.
           rewrite app_nil_r in E. now rewrite E.
        -- exfalso. apply compat_of_starts_with in Hg'.
           cbn [app clash_tail] in Htail.
           rewrite suffix_clash_app in Htail; [discriminate| discriminate |exact Hg'].
    + destruct (IH H) as [Hx|Hy]; auto.
      left. cbn [is_infix]. rewrite Hx. apply orb_true_r.
Qed.

Lemma join_with_cons (r u : str) (us : list str) :
  us <> [] -> join_with r (u :: us) = u ++ r ++ join_with r us.
Proof. destruct us; [congruence | reflexivity]. Qed.

Lemma join_with_cons_head (r : str) (c : char) (u : str) (us : list str) :
  join_with r ((c :: u) :: us) = c :: join_with r (u :: us).
Proof. destruct us; reflexivity. Qed.

(** Pieces without [g], joined by an [r] that [g] does not overlap, give a
    text without [g]. *)
Lemma join_with_absent (g r : str) (us : list str) : forall u,
  overlaps g r = false ->
  (forall v, In v (u :: us) -> is_infix g v = false) ->
  is_infix g (join_with r (u :: us)) = false.
Proof.
  induction us as [|u' us IH]; intros u Ho H.
  - apply H. now left.
  - rewrite join_with_cons by discriminate.
    destruct (is_infix g (u ++ r ++ join_with r (u' :: us))) eqn:E; auto.
    destruct (no_overlap_occurrence g r _ u Ho E) as [Hu|Hrest].
    + rewrite (H u) in Hu; [discriminate | now left].
    + rewrite IH in Hrest; [discriminate | exact Ho |].
      intros v Hv. apply H. now right.
Qed.

Lemma join_with_infix (g r : str) (us : list str) : forall v,
  In v us -> is_infix g v = true -> is_infix g (join_with r us) = true.
Proof.
  induction us as [|u us IH]; intros v Hv Hg; [destruct Hv|].
  destruct us as [|u' us].
  - destruct Hv as [->|[]]. exact Hg.
  - rewrite join_with_cons by discriminate.
    destruct Hv as [->|Hv].
    + now apply is_infix_app_l.
    + apply is_infix_app_r, is_infix_app_r. now apply IH with (v := v).
Qed.

(** *** The pieces the scan leaves *)

Lemma segments_nonempty (f s : str) : forall k, segments f k s <> [].
Proof.
  induction s as [|c s IH]; intros k; [discriminate|].
  destruct k as [|k]; cbn [segments]; auto.
  destruct (starts_with f (c :: s)); [discriminate|].
  destruct (segments f 0 s); discriminate.
Qed.

Lemma replace_scan_segments (f r s : str) : forall k,
  replace_scan f r k s = join_with r (segments f k s).
Proof.
  induction s as [|c s IH]; intros k; auto.
  destruct k as [|k]; cbn [segments replace_scan]; auto.
  destruct (starts_with f (c :: s)).
  - rewrite join_with_cons by apply segments_nonempty.
    now rewrite IH.
  - rewrite IH. pose proof (segments_nonempty f s 0) as Hne.
    destruct (segments f 0 s) as [|u us]; [congruence|].
    now rewrite join_with_cons_head.
Qed.

Lemma segments_join (a : char) (f' s : str) : forall k,
  join_with (a :: f') (segments (a :: f') k s) = skipn k s.
Proof.
  induction s as [|c s IH]; intros k.
  - now destruct k.
  - destruct k as [|k]; cbn [segments skipn]; auto.
    destruct (starts_with (a :: f') (c :: s)) eqn:E.
    + rewrite join_with_cons by apply segments_nonempty.
      rewrite IH. cbn [length app]. rewrite Nat.sub_1_r. cbn [Nat.pred].
      pose proof (starts_with_split _ _ E) as Hs. cbn [length skipn app] in Hs.
      now rewrite <- Hs.
    + pose proof (IH 0) as H0. pose proof (segments_nonempty (a :: f') s 0) as Hne.
      destruct (segments (a :: f') 0 s) as [|u us]; [congruence|].
      rewrite join_with_cons_head, H0. reflexivity.
Qed.

Lemma segments_head_prefix (a : char) (f' s u : str) (us : list str) :
  segments (a :: f') 0 s = u :: us -> exists rest, s = u ++ rest.
Proof.
  intros H. pose proof (segments_join a f' s 0) as J. rewrite H in J.
  cbn [skipn] in J. destruct us as [|u' us].
  - exists []. now rewrite app_nil_r.
  - rewrite join_with_cons in J by discriminate. eauto.
Qed.

Lemma segments_without_find (a : char) (f' s : str) : forall k u,
  In u (segments (a :: f') k s) -> is_infix (a :: f') u = false.
Proof.
  induction s as [|c s IH]; intros k u Hu.
  - destruct Hu as [<-|[]]. reflexivity.
  - destruct k as [|k]; cbn [segments] in Hu; [|now apply IH with (k := k)].
    destruct (starts_with (a :: f') (c :: s)) eqn:E.
    + destruct Hu as [<-|Hu]; [reflexivity | now apply IH with (k := length (a :: f') - 1)].
    + pose proof (segments_nonempty (a :: f') s 0) as Hne.
      destruct (segments (a :: f') 0 s) as [|v vs] eqn:Es; [congruence|].
      destruct Hu as [<-|Hu].
      * cbn [is_infix]. rewrite (IH 0 v) by (rewrite Es; now left).
        rewrite orb_false_r.
        destruct (starts_with (a :: f') (c :: v)) eqn:Ev; auto.
        destruct (segments_head_prefix a f' s Es) as (rest & ->).
        apply (starts_with_app_l _ _ rest) in Ev. cbn [app] in Ev. congruence.
      * apply IH with (k := 0). rewrite Es. now right.
Qed.

Lemma segments_infix (a : char) (f' g s : str) : forall k u,
  In u (segments (a :: f') k s) -> is_infix g u = true -> is_infix g s = true.
Proof.
  intros k u Hu Hg. apply is_infix_skipn with (k := k).
  rewrite <- (segments_join a f' s k).
  now apply join_with_infix with (v := u).
Qed.

(** *** One pass, then the run *)

(** After its pass, a find text that does not overlap its replace text is
    gone. *)
Lemma pass_removes_find (a : char) (f' r s : str) :
  overlaps (a :: f') r = false ->
  is_infix (a :: f') (str_replace s (a :: f') r) = false.
Proof.
  intros Ho. unfold str_replace. rewrite replace_scan_segments.
  pose proof (segments_nonempty (a :: f') s 0) as Hne.
  pose proof (segments_without_find a f' s 0) as H.
  destruct (segments (a :: f') 0 s) as [|u us]; [congruence|].
  now apply join_with_absent.
Qed.

(** A text [g] that is absent, and does not overlap the replace text, is
    absent after the pass of any pair with a non-empty find text. *)
Lemma pass_keeps_absent (g : str) (a : char) (f' r s : str) :
  overlaps g r = false -> is_infix g s = false ->
  is_infix g (str_replace s (a :: f') r) = false.
Proof.
  intros Ho Hs. unfold str_replace. rewrite replace_scan_segments.
  pose proof (segments_nonempty (a :: f') s 0) as Hne.
  pose proof (segments_infix a f' g s 0) as H.
  destruct (segments (a :: f') 0 s) as [|u us]; [congruence|].
  apply join_with_absent; auto.
  intros v Hv. destruct (is_infix g v) eqn:E; auto.
  rewrite (H v Hv E) in Hs. discriminate.
Qed.

Lemma chained_replace_find_absent (g : str) replacements : forall content,
  (forall q, In q replacements -> is_empty (fst q) = false) ->
  (forall q, In q replacements -> overlaps g (snd q) = false) ->
  (exists r, In (g, r) replacements) \/ is_infix g content = false ->
  is_infix g (chained_replace content replacements) = false.
Proof.
  induction replacements as [|[f r] rest IH]; intros content Hne Ho Hg.
  - destruct Hg as [(r & [])|Hg]; exact Hg.
  - unfold chained_replace; cbn [fold_left fst snd].
    assert (Hf : is_empty f = false) by (apply (Hne (f, r)); now left).
    destruct f as [|a f']; [discriminate|].
    apply IH.
    + intros q Hq. apply Hne. now right.
    + intros q Hq. apply Ho. now right.
    + destruct Hg as [(r' & [Heq|Hin])|Hg].
      * right. injection Heq as <- <-.
        apply pass_removes_find. apply (Ho (a :: f', r)). now left.
      * left. now exists r'.
      * right. apply pass_keeps_absent; auto. apply (Ho (a :: f', r)). now left.
Qed.

(** C4, amended: if no find text is a substring of a replace text of the
    list and, moreover, no find text overlaps a replace text of the list
    (no find text can begin inside a replace text, or end inside one, or
    hold one inside itself; next to an empty replace text a find text is a
    single character), then the transformer applied to its own result
    returns that result. *)
Theorem C4_idempotent_without_overlap
    (replacements : list pair) (content : str) (out : list Msg) :
  no_find_in_replace replacements = true ->
  no_find_overlaps_replace replacements = true ->
  fst ((once <- applyReplacements content replacements ;;
        applyReplacements once replacements) out)
  = fst (applyReplacements content replacements out).
Proof.
  intros Hdisj Hover.
  destruct (applyReplacements_run content replacements out) as (m & H).
  erewrite bind_ok by exact H.
  rewrite !applyReplacements_value. f_equal.
  unfold no_find_in_replace in Hdisj. rewrite forallb_forall in Hdisj.
  unfold no_find_overlaps_replace in Hover. rewrite forallb_forall in Hover.
  assert (Hne : forall q, In q replacements -> is_empty (fst q) = false).
  { intros q Hq. pose proof (Hdisj q Hq) as Hq'.
    rewrite forallb_forall in Hq'. specialize (Hq' q Hq).
    destruct (fst q); auto. now rewrite is_infix_empty in Hq'. }
  apply chained_replace_absent. intros [g r] Hp. cbn [fst].
  apply chained_replace_find_absent; auto.
  - intros q Hq. pose proof (Hover (g, r) Hp) as Hg.
    rewrite forallb_forall in Hg. apply negb_true_iff. now apply Hg.
  - left. now exists r.
Qed.

Lemma C4_idempotent_without_overlap_witness :
  fst ((once <- applyReplacements (py "teh adn tehadn x")
                  [(py "teh", py "the"); (py "adn", py "and"); (py "x", py "y")] ;;
        applyReplacements once
          [(py "teh", py "the"); (py "adn", py "and"); (py "x", py "y")]) [])
  = fst (applyReplacements (py "teh adn tehadn x")
           [(py "teh", py "the"); (py "adn", py "and"); (py "x", py "y")] []).
Proof.
  apply C4_idempotent_without_overlap; reflexivity.
Defined.

(** One-character find texts that occur in no replace text overlap none:
    the lists of character substitutions and deletions are covered. *)
Lemma single_char_no_overlap (replacements : list pair) :
  single_char_finds replacements = true ->
  no_find_in_replace replacements = true ->
  no_find_overlaps_replace replacements = true.
Proof.
  unfold single_char_finds, no_find_in_replace, no_find_overlaps_replace.
  rewrite !forallb_forall. intros Hone Hdisj p Hp.
  rewrite forallb_forall. intros q Hq. apply negb_true_iff.
  pose proof (Hone p Hp) as Hlen. pose proof (Hdisj p Hp) as Hin.
  rewrite forallb_forall in Hin. specialize (Hin q Hq).
  apply negb_true_iff in Hin.
  destruct p as [[|c [|d g]] r']; try discriminate. cbn [fst] in *.
  unfold overlaps. cbn [clash_tail suffix_clash]. rewrite orb_false_r.
  induction (snd q) as [|e r IH]; auto.
  rewrite is_infix_char in Hin. cbn [existsb] in Hin.
  apply orb_false_iff in Hin as [Hce Hr]. rewrite <- is_infix_char in Hr.
  cbn [clash_in]. rewrite (IH Hr), orb_false_r.
  unfold compat. cbn [starts_with]. rewrite (N.eqb_sym e c), Hce. reflexivity.
Qed.

(** ** Stripped fields, with and without header *)

(** C6: the pair stored for an accepted row is the stripped first field and
    the stripped second field, in the loop body for every row index, with
    and without header, and in the loader for every position of the row;
    a stripped field is the field without a run of whitespace at each end:
    it neither starts nor ends with a whitespace character.  The row
    [" foo "; " bar "] gives ("foo","bar"). *)
Theorem C6_fields_are_stripped :
  (forall (has_header : bool) (i : nat) (f t : str) (extra : row)
          (replacements : list pair) (out : list Msg),
      is_empty (strip f) = false ->
      load_row has_header i (f :: t :: extra) replacements out
      = (Ok (replacements ++ [(strip f, strip t)]), out))
  /\ (forall (has_header : bool) (before : list row) (f t : str) (extra : row)
             (after : list row),
         is_empty (strip f) = false ->
         (has_header = true -> before <> []) ->
         value_of (loadReplacementPairs has_header
                     (before ++ (f :: t :: extra) :: after))
         = Ok (valid_pairs (if has_header then tl before else before)
               ++ (strip f, strip t) :: valid_pairs after))
  /\ (forall s : str,
         (exists l r, s = l ++ strip s ++ r
                      /\ forallb isspace l = true /\ forallb isspace r = true)
         /\ hd_not_space (strip s) = true
         /\ hd_not_space (rev (strip s)) = true)
  /\ value_of (loadReplacementPairs false [[py " foo "; py " bar "]])
     = Ok [(py "foo", py "bar")]
  /\ value_of (loadReplacementPairs true
                 [[py "find"; py "replace"]; [py " foo "; py " bar "]])
     = Ok [(py "foo", py "bar")].
Proof.
  split; [|split; [|split; [|split; reflexivity]]].
  - intros has_header i f t extra replacements out Hf.
    rewrite load_row_run. cbn [row_pairs row_warnings]. rewrite Hf.
    now rewrite app_nil_r.
  - intros has_header before f t extra after Hf Hhdr.
    rewrite load_value. f_equal.
    assert (Hrow : valid_pairs ((f :: t :: extra) :: after)
                   = (strip f, strip t) :: valid_pairs after).
    { unfold valid_pairs. cbn [flat_map row_pairs]. now rewrite Hf. }
    destruct has_header.
    + destruct before as [|hdr before]; [now destruct Hhdr|].
      cbn [app tl]. now rewrite valid_pairs_app, Hrow.
    + now rewrite valid_pairs_app, Hrow.
  - intros s. split; [apply strip_split | apply strip_no_outer_space].
Qed.

Lemma C6_fields_witness :
  load_row true 3 [py "  a b  "; py " c"; py "d"] [(py "x", py "y")] []
  = (Ok ([(py "x", py "y")] ++ [(strip (py "  a b  "), strip (py " c"))]), [])
  /\ value_of (loadReplacementPairs true
                 ([[py "h"]] ++ [py "  a b  "; py " c"; py "d"] :: []))
     = Ok (valid_pairs (tl [[py "h"]])
           ++ (strip (py "  a b  "), strip (py " c")) :: valid_pairs []).
Proof.
  destruct C6_fields_are_stripped as (Hrow & Hload & _).
  split.
  - apply Hrow. reflexivity.
  - apply (Hload true [[py "h"]]).
    + reflexivity.
    + discriminate.
Defined.

(** ** Exceptions inside the loader *)

(** C9, as the spec states it, fails in its last part: the loader does use
    an exception for control flow.  With a header asked for and no row,
    [next] raises [StopIteration] inside the [try] of the header skip, and
    it is the handler of that exception that prints the warning and lets
    the load go on. *)
Lemma C9_loader_catches_StopIteration :
  skip_header true []
  = try_except (x <- next [] ;; print HeaderSkipped ;;; ret (snd x))
      StopIteration (print EmptyAfterHeader ;;; ret [])
  /\ (x <- next [] ;; print HeaderSkipped ;;; ret (snd x)) []
     = (Raise StopIteration, [])
  /\ loadReplacementPairs true [] [] = (Ok [], [EmptyAfterHeader]).
Proof. repeat split. Qed.

(** C9, amended: neither operation lets an exception out.  On every list
    of rows the loader returns a list of pairs and on every text and pair
    list the transformer returns a text; the two loops never raise: the
    indexing of a row, which raises on a row too short, is only reached
    for rows of two fields or more.  The one exception met inside is the
    [StopIteration] of the header skip on an empty list of rows, which the
    loader catches itself. *)
Theorem C9_no_exception_escapes :
  (forall has_header rows out, exists pairs out',
      loadReplacementPairs has_header rows out = (Ok pairs, out'))
  /\ (forall content replacements out, exists result out',
         applyReplacements content replacements out = (Ok result, out'))
  /\ (forall has_header i rows replacements out, exists pairs out',
         load_rows has_header i rows replacements out = (Ok pairs, out'))
  /\ (forall content replacements out, exists result out',
         replace_loop content replacements out = (Ok result, out'))
  /\ (forall (r : row) (i : nat) out,
         getitem r i out = (Raise IndexError, out) <-> length r <= i)
  /\ (forall has_header i (r : row) replacements out, exists pairs out',
         load_row has_header i r replacements out = (Ok pairs, out'))
  /\ (forall out,
         (x <- next [] ;; print HeaderSkipped ;;; ret (snd x)) out
         = (Raise StopIteration, out)
         /\ loadReplacementPairs true [] out = (Ok [], out ++ [EmptyAfterHeader])).
Proof.
  split; [|split; [|split; [|split; [|split; [|split]]]]].
  - intros has_header rows out.
    destruct (load_run_ex has_header rows out) as (m & ->). eauto.
  - intros. destruct (applyReplacements_run content replacements out) as (m & ->).
    eauto.
  - intros. rewrite load_rows_run. eauto.
  - intros. destruct (replace_loop_run replacements content out) as (m & ->).
    eauto.
  - intros r i out. unfold getitem. rewrite <- nth_error_None.
    destruct (nth_error r i); split; intros H; try discriminate; reflexivity.
  - intros. rewrite load_row_run. eauto.
  - intros out. split; reflexivity.
Qed.

(** ** Rows and warnings, header or not *)

(** X2: every row after the header gives exactly one pair or exactly one
    warning, and the only other warning is the one printed when a header is
    asked for and there is no row at all: the number of pairs plus the
    number of warnings is the number of rows after the header, plus one in
    that last case. *)
Theorem loader_accounts_for_every_row (has_header : bool) (rows : list row) :
  exists ps,
    value_of (loadReplacementPairs has_header rows) = Ok ps
    /\ length ps
       + length (filter is_warning
                   (printed_by (loadReplacementPairs has_header rows)))
       = length (if has_header then tl rows else rows)
         + (if has_header then match rows with [] => 1 | _ :: _ => 0 end else 0).
Proof.
  eexists. split; [apply load_value|].
  rewrite load_printed.
  destruct has_header; [destruct rows as [|hdr rest]|].
  - reflexivity.
  - cbn [filter is_warning tl]. rewrite Nat.add_0_r. apply rows_accounting.
  - rewrite Nat.add_0_r. apply rows_accounting.
Qed.

(** ** The loader, then the transformer *)

(** X15: whatever rows the loader is given, the pairs it returns applied to
    the empty text give the empty text: no loaded find text is empty, so
    nothing is inserted. *)
Theorem empty_input_gives_empty_output
    (rows : list row) (has_header : bool) (out : list Msg) :
  fst ((ps <- loadReplacementPairs has_header rows ;;
        applyReplacements [] ps) out)
  = Ok [].
Proof.
  destruct (load_run_ex has_header rows out) as (m & H).
  erewrite bind_ok by exact H.
  rewrite applyReplacements_value. f_equal.
  apply chained_replace_nil.
  eapply Forall_impl; [|apply valid_pairs_stripped].
  intros p (Hp & _). exact Hp.
Qed.

(** X17: when every row read after the header is malformed, the loader
    followed by the transformer returns the text it was given, and the last
    two messages are the two lines that say no pair was found and the input
    was copied. *)
Theorem all_rows_malformed_copies_input
    (rows : list row) (content : str) (has_header : bool) (out : list Msg) :
  Forall (fun r => malformed r = true) (if has_header then tl rows else rows) ->
  exists msgs,
    (ps <- loadReplacementPairs has_header rows ;;
     applyReplacements content ps) out
    = (Ok content, out ++ msgs ++ [NoValidPairs; InputCopied]).
Proof.
  intros H.
  destruct (load_run_ex has_header rows out) as (m & Hl).
  erewrite bind_ok by exact Hl.
  rewrite (all_malformed_no_pairs H).
  exists m. cbn. now rewrite <- !app_assoc.
Qed.

Lemma all_rows_malformed_witness :
  exists msgs,
    (ps <- loadReplacementPairs true
             [[py "find"; py "replace"]; [py "only"]; [py " "; py "x"]] ;;
     applyReplacements (py "text") ps) []
    = (Ok (py "text"), [] ++ msgs ++ [NoValidPairs; InputCopied]).
Proof.
  apply all_rows_malformed_copies_input.
  repeat constructor.
Defined.

(** ** Literal comparison *)

Lemma is_infix_iff (f s : str) :
  is_infix f s = true <-> exists u t, s = u ++ f ++ t.
Proof.
  split.
  - induction s as [|c s IH]; intros H.
    + destruct f; [|discriminate]. now exists [], [].
    + cbn [is_infix] in H. apply orb_true_iff in H as [H|H].
      * exists [], (skipn (length f) (c :: s)). now apply starts_with_split.
      * destruct (IH H) as (u & t & ->). now exists (c :: u), t.
  - intros (u & t & ->). apply is_infix_app_r, is_infix_app_l.
    destruct f as [|a f]; [reflexivity|].
    cbn [is_infix]. pose proof (starts_with_self (a :: f) []) as E.
    rewrite app_nil_r in E. now rewrite E.
Qed.

Lemma leftmost_occurrence (a : char) (f' s : str) :
  is_infix (a :: f') s = true ->
  exists u t,
    s = u ++ (a :: f') ++ t
    /\ forall k, k < length u ->
                 starts_with (a :: f') (skipn k (u ++ (a :: f') ++ t)) = false.
Proof.
  induction s as [|c s IH]; intros H; [discriminate|].
  destruct (starts_with (a :: f') (c :: s)) eqn:E.
  - exists [], (skipn (length (a :: f')) (c :: s)). split.
    + now apply starts_with_split.
    + intros k Hk. simpl in Hk. lia.
  - cbn [is_infix] in H. rewrite E in H. cbn [orb] in H.
    destruct (IH H) as (u & t & -> & Hleft).
    exists (c :: u), t. split; auto.
    intros [|k] Hk; [exact E|].
    apply Hleft. simpl in Hk. lia.
Qed.

(** A pass whose find text occurs and differs from its replace text
    changes the text. *)
Lemma str_replace_changes (s f r : str) :
  is_infix f s = true -> f <> r -> str_replace s f r <> s.
Proof.
  intros Hin Hne Heq. destruct f as [|a f'].
  - apply (f_equal (@length char)) in Heq. cbn [str_replace] in Heq.
    rewrite interleave_length in Heq.
    destruct r; [congruence|]. simpl in Heq. lia.
  - destruct (leftmost_occurrence a f' s Hin) as (u & t & -> & Hleft).
    unfold str_replace in Heq.
    rewrite (replace_scan_leftmost a f' r u t Hleft) in Heq.
    apply app_inv_head in Heq.
    pose proof (str_replace_length_le t (a :: f') r) as Hle.
    pose proof (str_replace_length_ge t (a :: f') r) as Hge.
    unfold str_replace in Hle, Hge.
    pose proof (f_equal (@length char) Heq) as Hlen.
    rewrite !length_app in Hlen.
    destruct (Nat.lt_trichotomy (length r) (length (a :: f'))) as [Hlt|[Hlt|Hlt]];
      [specialize (Hle ltac:(lia)); lia | | specialize (Hge ltac:(lia)); lia].
    apply Hne.
    pose proof (f_equal (firstn (length r)) Heq) as Hfst.
    rewrite firstn_length_app, Hlt, firstn_length_app in Hfst.
    now symmetry.
Qed.

Section Relabel.

(** A renaming of the characters that keeps distinct characters
    distinct. *)
Variable phi : char -> char.
Hypothesis phi_injective : forall a b, phi a = phi b -> a = b.

Lemma eqb_relabel (a b : char) : (phi a =? phi b)%N = (a =? b)%N.
Proof.
  destruct (a =? b)%N eqn:E.
  - apply N.eqb_eq in E as ->. apply N.eqb_refl.
  - apply N.eqb_neq. intros H. apply phi_injective in H.
    apply N.eqb_neq in E. contradiction.
Qed.

Lemma starts_with_relabel (old : str) : forall s,
  starts_with (map phi old) (map phi s) = starts_with old s.
Proof.
  induction old as [|a old IH]; intros [|b s]; auto.
  cbn [map starts_with]. now rewrite eqb_relabel, IH.
Qed.

Lemma replace_scan_relabel (old new s : str) : forall k,
  replace_scan (map phi old) (map phi new) k (map phi s)
  = map phi (replace_scan old new k s).
Proof.
  induction s as [|c s IH]; intros k; auto.
  destruct k as [|k]; cbn [map replace_scan]; auto.
  change (phi c :: map phi s) with (map phi (c :: s)).
  rewrite starts_with_relabel, length_map.
  destruct (starts_with old (c :: s)).
  - now rewrite map_app, IH.
  - cbn [map]. now rewrite IH.
Qed.

Lemma interleave_relabel (new s : str) :
  interleave (map phi new) (map phi s) = map phi (interleave new s).
Proof.
  induction s as [|c s IH]; auto.
  cbn [map interleave]. rewrite map_app. cbn [map]. now rewrite IH.
Qed.

Lemma str_replace_relabel (s old new : str) :
  str_replace (map phi s) (map phi old) (map phi new)
  = map phi (str_replace s old new).
Proof.
  destruct old as [|a old].
  - apply interleave_relabel.
  - apply (replace_scan_relabel (a :: old)).
Qed.

Lemma chained_replace_relabel (replacements : list pair) : forall content,
  chained_replace (map phi content)
    (map (fun p : pair => (map phi (fst p), map phi (snd p))) replacements)
  = map phi (chained_replace content replacements).
Proof.
  induction replacements as [|[f r] rest IH]; intros content; auto.
  unfold chained_replace in *. cbn [map fold_left fst snd].
  now rewrite str_replace_relabel, IH.
Qed.

End Relabel.

(** C8: the text the transformer returns is a function of the text and the
    pair list alone, and the comparison is the literal one.  It does not
    depend on what was printed before the run; a second run after the first
    returns the same text; it is the chained replacement.  Characters are
    compared for equality and nothing else: renaming the characters of the
    text and of the pairs, distinct ones to distinct ones, renames the
    result the same way.  A pass changes the text exactly when its find
    text occurs in it, as a literal run of characters, and differs from its
    replace text. *)
Theorem C8_transformer_deterministic :
  (forall content replacements out1 out2,
      fst (applyReplacements content replacements out1)
      = fst (applyReplacements content replacements out2)
      /\ fst (applyReplacements content replacements out1)
         = Ok (chained_replace content replacements))
  /\ (forall content replacements out,
         exists result,
           fst ((first <- applyReplacements content replacements ;;
                 second <- applyReplacements content replacements ;;
                 ret (first, second)) out)
           = Ok (result, result))
  /\ (forall (phi : char -> char) content replacements out,
         (forall a b, phi a = phi b -> a = b) ->
         fst (applyReplacements (map phi content)
                (map (fun p : pair => (map phi (fst p), map phi (snd p)))
                     replacements) out)
         = Ok (map phi (chained_replace content replacements)))
  /\ (forall content find_text replace_text,
         str_replace content find_text replace_text <> content
         <-> is_infix find_text content = true /\ find_text <> replace_text)
  /\ (forall find_text content,
         is_infix find_text content = true
         <-> exists u t, content = u ++ find_text ++ t).
Proof.
  split; [|split; [|split; [|split]]].
  - intros. now rewrite !applyReplacements_value.
  - intros content replacements out.
    destruct (applyReplacements_run content replacements out) as (m1 & H1).
    destruct (applyReplacements_run content replacements (out ++ m1)) as (m2 & H2).
    eexists. erewrite bind_ok by exact H1. erewrite bind_ok by exact H2.
    reflexivity.
  - intros phi content replacements out Hphi.
    rewrite applyReplacements_value. f_equal.
    now apply chained_replace_relabel.
  - intros content f r. split.
    + intros H. split.
      * destruct (is_infix f content) eqn:E; auto.
        exfalso. apply H. now apply str_replace_absent.
      * intros ->. apply H. apply str_replace_same.
    + intros [Hin Hne]. now apply str_replace_changes.
  - intros. apply is_infix_iff.
Qed.

Lemma C8_transformer_witness :
  fst (applyReplacements (map N.succ (py "a-b-a"))
         (map (fun p : pair => (map N.succ (fst p), map N.succ (snd p)))
              [(py "a", py "bb"); (py "b-b", py "")]) [])
  = Ok (map N.succ (chained_replace (py "a-b-a")
                      [(py "a", py "bb"); (py "b-b", py "")])).
Proof.
  destruct C8_transformer_deterministic as (_ & _ & H & _).
  apply H. intros a b E. now apply N.succ_inj.
Defined.
